(** * HEPunion: path helpers and recursive mutex

    A shallow embedding of [helpers.c] (permission guard, branch
    resolver, path translator) and of [recursivemutex.c].

    Conventions.
    - C strings are lists of characters without the terminating NUL; a
      pointer into a string is an offset ([nat]) into that list.
    - [int] results are kept as [Z]; negative values are errno codes.
    - Calls that leave the file (the VFS, the whiteout and copy-up code,
      the credentials of the caller) are fields of a [kernel] record and
      every call is appended to a trace, so that "is never called" and
      "before any call" are statements about that trace.
    - A computation either finishes with a value and a state, or stops in
      a [fault]: C undefined behaviour (buffer overrun, NULL arithmetic),
      a failed [assert], or an exhausted loop budget. *)

From Stdlib Require Import ZArith List Ascii String Bool Lia.
Import ListNotations.
Local Open Scope Z_scope.

Set Implicit Arguments.

(** ** C strings *)

Definition cstring := list ascii.

Definition cstr (s : string) : cstring := list_ascii_of_string s.

Definition slash : ascii := "/"%char.

Definition strlen (s : cstring) : Z := Z.of_nat (List.length s).

(** [find_from c s i]: offset of the first [c] in [s], counted from [i]
    for the head of [s]. *)
Fixpoint find_from (c : ascii) (s : cstring) (i : nat) : option nat :=
  match s with
  | [] => None
  | x :: s' => if Ascii.eqb x c then Some i else find_from c s' (S i)
  end.

(** [strchr (s + from, c)], as an offset into [s]. *)
Definition strchr (s : cstring) (from : nat) (c : ascii) : option nat :=
  find_from c (skipn from s) from.

(** [find_last c s i]: offset of the last [c] in [s]. *)
Fixpoint find_last (c : ascii) (s : cstring) (i : nat) : option nat :=
  match s with
  | [] => None
  | x :: s' =>
      match find_last c s' (S i) with
      | Some j => Some j
      | None => if Ascii.eqb x c then Some i else None
      end
  end.

Definition strrchr (s : cstring) (c : ascii) : option nat := find_last c s 0%nat.

(** The bytes [s[from .. to)]. *)
Definition slice (s : cstring) (from to : nat) : cstring :=
  firstn (to - from) (skipn from s).

(** [snprintf (buf, size, fmt, ...)] where the formatted text is [s]: the
    return value is the length of [s], the buffer receives at most
    [size - 1] characters. *)
Definition snprintf (size : Z) (s : cstring) : Z * cstring :=
  (strlen s, firstn (Z.to_nat (size - 1)) s).

Fixpoint cstring_eqb (a b : cstring) : bool :=
  match a, b with
  | [], [] => true
  | x :: a', y :: b' => Ascii.eqb x y && cstring_eqb a' b'
  | _, _ => false
  end.

(** ** Constants *)

(** errno values of Linux ([asm-generic/errno-base.h], [errno.h]). *)
Module Errno.
Definition ENOENT : Z := 2.
Definition EACCES : Z := 13.
(** [can_access] spells the constant [EACCESS]; it is the same code. *)
Definition EACCESS : Z := EACCES.
Definition ENAMETOOLONG : Z := 36.
Definition ENODATA : Z := 61.
End Errno.
Import Errno.

(** [PATH_MAX] of [linux/limits.h]. *)
Definition PATH_MAX : Z := 4096.

(** Access bits of [access(2)], as the comment in [can_access] lists
    them, and the width of one permission triplet. *)
Definition R_OK : Z := 4.
Definition W_OK : Z := 2.
Definition X_OK : Z := 1.
Definition RIGHTS_MASK : Z := 3.

(** The driver's header is not part of the sources at hand: the values
    it defines are taken as parameters. *)
Record hepunion_h : Type := {
  MAX_PATH : Z;
  MUST_READ_WRITE : Z;
  MUST_READ_ONLY : Z;
  CREATE_COPYUP : Z;
  IGNORE_WHITEOUT : Z;
  READ_ONLY : Z;
  READ_WRITE : Z;
  READ_WRITE_COPYUP : Z
}.

(** Modelled from the spec: the macro [is_flag_set] is missing; the flags
    are independently combinable bits of one flag word. *)
Definition is_flag_set (flags s : Z) : bool := Z.land flags s =? s.

(** The values of a Linux build. *)
Definition linux_h : hepunion_h := {|
  MAX_PATH := 4096;
  MUST_READ_WRITE := 1;
  MUST_READ_ONLY := 2;
  CREATE_COPYUP := 4;
  IGNORE_WHITEOUT := 8;
  READ_ONLY := 0;
  READ_WRITE := 1;
  READ_WRITE_COPYUP := 2
|}.

(** ** The outside world *)

Record kstat : Type := { st_mode : Z; st_uid : Z; st_gid : Z }.

Inductive event : Type :=
| EvLstat (real_path : cstring)
| EvGetAttr (path real_path : cstring)
| EvFindWhiteout (path : cstring)
| EvCreateCopyup (path ro_path : cstring).

Record kernel (world : Type) : Type := {
  (** [vfs_lstat (real_path, &kstbuf)] *)
  vfs_lstat : world -> cstring -> Z;
  (** [get_file_attr_worker (path, real_path, &stbuf)] *)
  get_file_attr_worker : world -> cstring -> cstring -> Z * kstat;
  (** [find_whiteout (path, wh_path)] *)
  find_whiteout : world -> cstring -> Z;
  (** [create_copyup (path, ro_path, real_path)]: result, the text left
      in [real_path], and the file system afterwards. *)
  create_copyup : world -> cstring -> cstring -> Z * cstring * world;
  sys_geteuid : Z;
  sys_getegid : Z
}.

(** The mount context: the two branch roots. *)
Record hepunion_sb_info : Type := {
  read_only_branch : cstring;
  read_write_branch : cstring
}.

Definition ro_len (c : hepunion_sb_info) : nat := List.length (read_only_branch c).
Definition rw_len (c : hepunion_sb_info) : nat := List.length (read_write_branch c).

(** ** Computations *)

Inductive fault : Type := UndefinedBehaviour | AssertionFailed | OutOfFuel.

Record state (world : Type) : Type := {
  fs : world;
  trace : list event
}.

Inductive result (S A : Type) : Type :=
| Done (a : A) (s : S)
| Fault (f : fault).
Arguments Fault {S A} f.

Definition M (S A : Type) : Type := S -> result S A.

Definition ret {S A} (a : A) : M S A := fun s => Done a s.

Definition bind {S A B} (m : M S A) (k : A -> M S B) : M S B :=
  fun s => match m s with
           | Done a s' => k a s'
           | Fault f => Fault f
           end.

Definition undefined {S A} : M S A := fun _ => Fault UndefinedBehaviour.

Declare Scope monad_scope.
Delimit Scope monad_scope with monad.
Notation "x <- m ;; k" := (bind m (fun x => k))
  (at level 61, m at next level, right associativity) : monad_scope.
Notation "' pat <- m ;; k" := (bind m (fun x => match x with pat => k end))
  (at level 61, pat pattern, m at next level, right associativity) : monad_scope.
Local Open Scope monad_scope.

Section Helpers.

Variable world : Type.
Variable h : hepunion_h.
Variable K : kernel world.
Variable context : hepunion_sb_info.

Local Abbreviation st := (state world).

Definition call_vfs_lstat (real_path : cstring) : M st Z :=
  fun s => Done (vfs_lstat K (fs s) real_path)
                {| fs := fs s; trace := trace s ++ [EvLstat real_path] |}.

Definition call_get_file_attr_worker (path real_path : cstring) : M st (Z * kstat) :=
  fun s => Done (get_file_attr_worker K (fs s) path real_path)
                {| fs := fs s; trace := trace s ++ [EvGetAttr path real_path] |}.

Definition call_find_whiteout (path : cstring) : M st Z :=
  fun s => Done (find_whiteout K (fs s) path)
                {| fs := fs s; trace := trace s ++ [EvFindWhiteout path] |}.

Definition call_create_copyup (path ro_path : cstring) : M st (Z * cstring) :=
  fun s => let '(err, real_path, w') := create_copyup K (fs s) path ro_path in
           Done (err, real_path)
                {| fs := w'; trace := trace s ++ [EvCreateCopyup path ro_path] |}.

(** *** [can_access] *)

Definition nonzero (z : Z) : bool := negb (z =? 0).

(** The block "If root user, allow almost everything": [Some 0] when it
    returns, [None] when control falls through to the triplet check. *)
Definition root_shortcut (euid mode : Z) (stbuf : kstat) : option Z :=
  if euid =? 0 then
    if nonzero (Z.land mode X_OK) then
      if nonzero (Z.land X_OK (st_mode stbuf))
         || nonzero (Z.land (Z.shiftl X_OK RIGHTS_MASK) (st_mode stbuf))
         || nonzero (Z.land (Z.shiftl X_OK (RIGHTS_MASK * 2)) (st_mode stbuf))
      then Some 0
      else None
    else Some 0
  else None.

(** [mode <<= ...] by owner, group or nobody. *)
Definition shift_mode (euid egid mode : Z) (stbuf : kstat) : Z :=
  if euid =? st_uid stbuf then Z.shiftl mode (RIGHTS_MASK * 2)
  else if egid =? st_gid stbuf then Z.shiftl mode RIGHTS_MASK
  else mode.

(** What [can_access] does with the answer of [get_file_attr_worker]. *)
Definition access_decision (euid egid mode err : Z) (stbuf : kstat) : Z :=
  if nonzero err then err
  else
    match root_shortcut euid mode stbuf with
    | Some r => r
    | None =>
        let mode := shift_mode euid egid mode stbuf in
        if Z.land mode (st_mode stbuf) =? mode then 0
        else - EACCESS
    end.

Definition can_access (path real_path : cstring) (mode : Z) : M st Z :=
  '(err, stbuf) <- call_get_file_attr_worker path real_path ;;
  ret (access_decision (sys_geteuid K) (sys_getegid K) mode err stbuf).

(** *** [can_remove] *)

Definition can_remove (path real_path : cstring) : M st Z :=
  match strrchr real_path slash with
  | None =>
      (* parent is NULL: [parent - real_path] is not defined *)
      undefined
  | Some parent =>
      if (parent =? 0)%nat then ret (- EACCES)
      else if PATH_MAX <=? Z.of_nat parent then
        (* parent_path[parent - real_path] lies outside the buffer *)
        undefined
      else can_access path (slice real_path 0 parent) W_OK
  end.

(** *** [can_traverse] *)

(** [strncat (dest, src, n)] into a buffer of [PATH_MAX] bytes, [piece]
    being the [n] characters taken from [src]. *)
Definition strncat (dest piece : cstring) : M st cstring :=
  if strlen dest + strlen piece + 1 <=? PATH_MAX then ret (dest ++ piece)
  else undefined.

(** The [while (directory)] loop; [old_directory] and [directory] are
    offsets into [path]. *)
Fixpoint traverse_loop (fuel : nat) (path short_path long_path : cstring)
    (old_directory : nat) (directory : option nat) : M st Z :=
  match directory with
  | None => ret 0
  | Some d =>
      match fuel with
      | O => fun _ => Fault OutOfFuel
      | S fuel' =>
          let piece := slice path old_directory d in
          short_path <- strncat short_path piece ;;
          long_path <- strncat long_path piece ;;
          err <- can_access short_path long_path X_OK ;;
          if err <? 0 then ret err
          else traverse_loop fuel' path short_path long_path d
                 (strchr path (S d) slash)
      end
  end.

Definition can_traverse (path : cstring) : M st Z :=
  let short_path := snd (snprintf PATH_MAX [slash]) in
  let '(n, long_path) := snprintf PATH_MAX (read_only_branch context ++ [slash]) in
  if PATH_MAX <? n then ret (- ENAMETOOLONG)
  else
    match strrchr path slash with
    | Some O => ret 0
    | _ =>
        match path with
        | [] =>
            (* [path + 1] points behind the terminator *)
            undefined
        | _ :: _ =>
            traverse_loop (List.length path) path short_path long_path
              1%nat (strchr path 1%nat slash)
        end
    end.

(** *** [find_file] *)

(** Modelled from the spec: the macros [make_rw_path] and [make_ro_path]
    are missing; they concatenate the root of a branch with the union
    path, by [snprintf] into the [PATH_MAX] bytes of the buffer, as the
    test of their result against [PATH_MAX] and the call at the head of
    [can_traverse] have it. *)
Definition make_rw_path (path : cstring) : Z * cstring :=
  snprintf PATH_MAX (read_write_branch context ++ path).

Definition make_ro_path (path : cstring) : Z * cstring :=
  snprintf PATH_MAX (read_only_branch context ++ path).

(** From "Check for access" to the end of the copy-up branch, followed by
    the final [return err]. *)
Definition copyup_tail (path tmp_path real_path : cstring) : M st (Z * cstring) :=
  err <- can_traverse path ;;
  if err <? 0 then ret (err, real_path)
  else
    '(err, real_path) <- call_create_copyup path tmp_path ;;
    if err =? 0 then ret (READ_WRITE_COPYUP h, real_path)
    else ret (err, real_path).

(** From "Check for access" to the end of the read-only branch. *)
Definition readonly_tail (path real_path : cstring) : M st (Z * cstring) :=
  err <- can_traverse path ;;
  if err <? 0 then ret (err, real_path)
  else ret (READ_ONLY h, real_path).

(** The second half of [find_file], from "Be smart, we might have to
    create a copyup". *)
Definition find_file_ro (path real_path : cstring) (flags : Z) : M st (Z * cstring) :=
  if is_flag_set flags (CREATE_COPYUP h) then
    let '(n, tmp_path) := make_ro_path path in
    if PATH_MAX <? n then ret (- ENAMETOOLONG, real_path)
    else
      err <- call_vfs_lstat tmp_path ;;
      if err <? 0 then ret (err, real_path)
      else if negb (is_flag_set flags (IGNORE_WHITEOUT h)) then
        err <- call_find_whiteout path ;;
        if err <? 0 then ret (err, real_path)
        else copyup_tail path tmp_path real_path
      else copyup_tail path tmp_path real_path
  else
    let '(n, real_path) := make_ro_path path in
    if PATH_MAX <? n then ret (- ENAMETOOLONG, real_path)
    else
      err <- call_vfs_lstat real_path ;;
      if err <? 0 then ret (err, real_path)
      else if negb (is_flag_set flags (IGNORE_WHITEOUT h)) then
        err <- call_find_whiteout path ;;
        if err =? 0 then ret (- ENOENT, real_path)
        else readonly_tail path real_path
      else readonly_tail path real_path.

(** [find_file (path, real_path, flags)]: the [int] returned and the text
    left in the caller's [real_path] buffer. *)
Definition find_file (path real_path : cstring) (flags : Z) : M st (Z * cstring) :=
  if negb (is_flag_set flags (MUST_READ_ONLY h)) then
    let '(n, real_path) := make_rw_path path in
    if PATH_MAX <? n then ret (- ENAMETOOLONG, real_path)
    else
      err <- call_vfs_lstat real_path ;;
      if err <? 0 then
        if is_flag_set flags (MUST_READ_WRITE h) then ret (err, real_path)
        else find_file_ro path real_path flags
      else
        err <- can_traverse path ;;
        if err <? 0 then ret (err, real_path)
        else ret (READ_WRITE h, real_path)
  else find_file_ro path real_path flags.

End Helpers.

(** ** Path translator: [get_full_path] and [get_relative_path] *)

(** A dentry chain from a leaf up to the root of the dentry tree;
    [IS_ROOT] holds of [Root] only.  [d_name.len] is the length of
    [d_name]. *)
Inductive dentry : Type :=
| Root
| Dentry (d_name : cstring) (d_parent : dentry).

Record inode : Type := {
  i_nlink : Z;
  (** first entry of the alias list [i_dentry], if there is one *)
  i_dentry : option dentry
}.

Definition NUL : ascii := zero.

(** A byte buffer handed to a callee is the state of the computation:
    what the callee leaves in it is what the caller reads afterwards. *)
Definition buffer := list ascii.

(** [memcpy (buf, src, n)] at the head of [buf]. *)
Definition memcpy (src : buffer) (n : nat) : M buffer unit :=
  fun buf => Done tt (firstn n src ++ skipn n buf).

(** The [while (!IS_ROOT (dentry))] loop.  [tmp_path] is filled from its
    end: [tail] holds the bytes from [end] to the end of the buffer.
    [namelen] is [None] as long as the variable has not been assigned.
    The result is [inl] for the jump to [Elong_unlock]. *)
Fixpoint full_path_loop (d : dentry) (tail : buffer) (buflen : Z)
    (namelen : option Z) : Z + (buffer * Z * option Z) :=
  match d with
  | Root => inr (tail, buflen, namelen)
  | Dentry d_name d_parent =>
      let namelen := strlen d_name in
      let buflen := buflen - (namelen + 1) in
      if buflen <? 0 then inl (- ENAMETOOLONG)
      else full_path_loop d_parent (slash :: d_name ++ tail) buflen (Some namelen)
  end.

Section PathTranslator.

Variable h : hepunion_h.
Variable sb_info : hepunion_sb_info.

(** [get_full_path (inode, dentry, real_path)].  The destination of the
    last [memcpy] is written [path] in the source, a name that is not in
    scope there; it is read as the output parameter [real_path].  The
    buffer [real_path] is the state; the [int] is the value.  Taking and
    dropping [dcache_lock] leaves no mark on either and is left out. *)
Definition get_full_path (i : inode) (d : option dentry) : M buffer Z :=
  if negb (i_nlink i =? 0) then fun _ => Fault AssertionFailed
  else
    let d := match d with Some d => Some d | None => i_dentry i end in
    match d with
    | None =>
        (* IS_ROOT reads through a NULL dentry *)
        undefined
    | Some d =>
        (* *--end = 0; buflen-- *)
        match full_path_loop d [NUL] (MAX_PATH h - 1) None with
        | inl e => ret e
        | inr (tail, buflen, namelen) =>
            let buflen := buflen - 1 in
            if buflen <? 0 then ret (- ENAMETOOLONG)
            else
              match namelen with
              | None =>
                  (* namelen is read before any assignment *)
                  undefined
              | Some namelen =>
                  (* end -= namelen; memcpy (end, "/", namelen) *)
                  if buflen + 1 - namelen <? 0 then undefined
                  else if 2 <? namelen then undefined
                  else
                    let tail := firstn (Z.to_nat namelen) [slash; NUL] ++ tail in
                    (* memcpy (path, end, buflen) *)
                    if strlen tail <? buflen then undefined
                    else
                      _ <- memcpy tail (Z.to_nat buflen) ;;
                      ret buflen
              end
        end
    end.

(** The two branch tests of [get_relative_path], run on the bytes
    [real_path] with [len] the value [get_full_path] returned; the state
    is the caller's [path] buffer.  [sb_info->ro_lean] is read as
    [ro_len]. *)
Definition strip_branch (real_path : buffer) (len : Z) : M buffer Z :=
  if cstring_eqb (read_only_branch sb_info) (firstn (ro_len sb_info) real_path) then
    let n := len - 1 - Z.of_nat (ro_len sb_info) in
    if n <? 0 then undefined
    else
      _ <- memcpy (skipn (1 + ro_len sb_info) real_path) (Z.to_nat n) ;;
      ret 0
  else if cstring_eqb (read_write_branch sb_info) (firstn (rw_len sb_info) real_path) then
    let n := len - 1 - Z.of_nat (rw_len sb_info) in
    if n <? 0 then undefined
    else
      _ <- memcpy (skipn (1 + rw_len sb_info) real_path) (Z.to_nat n) ;;
      ret 0
  else ret (- ENODATA).

(** [get_relative_path (inode, dentry, path)].  [stack] is what the
    local array [real_path] holds on entry. *)
Definition get_relative_path (i : inode) (d : option dentry) (stack : buffer)
  : M buffer Z :=
  match get_full_path i d stack with
  | Fault f => fun _ => Fault f
  | Done len real_path =>
      if len <? 0 then ret len
      else strip_branch real_path len
  end.

End PathTranslator.

(** The dentry chain of an absolute path given by its components:
    [entry_of ["ro"; "a"]] is the entry [/ro/a]. *)
Definition entry_of (components : list cstring) : dentry :=
  fold_left (fun parent name => Dentry name parent) components Root.

(** ** Recursive mutex *)

Module RecursiveMutex.

(** A thread, as denoted by its [thread_info]. *)
Definition tid := nat.

(** The spin lock: [holder] is the thread that holds it, [None] when it
    is unlocked; [acquisitions] counts the [spin_lock] calls that have
    returned. *)
Record spinlock_t : Type := {
  holder : option tid;
  acquisitions : nat
}.

Record recursive_mutex_t : Type := {
  count : Z;
  lock : spinlock_t;
  owner : option tid
}.

(** [atomic_t] is a 32-bit [int]; its arithmetic wraps. *)
Definition wrap32 (z : Z) : Z := (z + 2 ^ 31) mod 2 ^ 32 - 2 ^ 31.

Definition atomic_add_return (i : Z) (m : recursive_mutex_t) : Z * recursive_mutex_t :=
  let c := wrap32 (count m + i) in
  (c, {| count := c; lock := lock m; owner := owner m |}).

Definition atomic_sub_return (i : Z) (m : recursive_mutex_t) : Z * recursive_mutex_t :=
  let c := wrap32 (count m - i) in
  (c, {| count := c; lock := lock m; owner := owner m |}).

(** [spin_lock]: [None] while the lock is held, the caller spins. *)
Definition spin_lock (ti : tid) (m : recursive_mutex_t) : option recursive_mutex_t :=
  match holder (lock m) with
  | Some _ => None
  | None =>
      Some {| count := count m;
              lock := {| holder := Some ti; acquisitions := S (acquisitions (lock m)) |};
              owner := owner m |}
  end.

Definition spin_unlock (m : recursive_mutex_t) : recursive_mutex_t :=
  {| count := count m;
     lock := {| holder := None; acquisitions := acquisitions (lock m) |};
     owner := owner m |}.

Definition set_owner (o : option tid) (m : recursive_mutex_t) : recursive_mutex_t :=
  {| count := count m; lock := lock m; owner := o |}.

Definition owner_is (ti : tid) (m : recursive_mutex_t) : bool :=
  match owner m with
  | Some o => Nat.eqb o ti
  | None => false
  end.

Definition recursive_mutex_init : recursive_mutex_t :=
  {| count := 0; lock := {| holder := None; acquisitions := 0 |}; owner := None |}.

(** A call run by one thread with no other thread in between. *)
Inductive outcome : Type :=
| Returns (m : recursive_mutex_t)
| Blocks (m : recursive_mutex_t).

Definition recursive_mutex_lock (ti : tid) (m : recursive_mutex_t) : outcome :=
  let '(count, m) := atomic_add_return 1 m in
  if count =? 1 then
    match spin_lock ti m with
    | Some m => Returns (set_owner (Some ti) m)
    | None => Blocks m
    end
  else if negb (owner_is ti m) then
    match spin_lock ti m with
    | Some m => Returns m
    | None => Blocks m
    end
  else Returns m.

Definition recursive_mutex_unlock (m : recursive_mutex_t) : outcome :=
  let '(count, m) := atomic_sub_return 1 m in
  if count =? 0 then Returns (spin_unlock (set_owner None m))
  else Returns m.

(** [n] calls in a row; a call that blocks ends the run. *)
Fixpoint repeat_call (f : recursive_mutex_t -> outcome) (n : nat)
    (m : recursive_mutex_t) : outcome :=
  match n with
  | O => Returns m
  | S n' =>
      match f m with
      | Returns m' => repeat_call f n' m'
      | Blocks m' => Blocks m'
      end
  end.

(** [acquire ()] [n] times, then [release ()] [n] times. *)
Definition nested (ti : tid) (n : nat) (m : recursive_mutex_t) : outcome :=
  match repeat_call (recursive_mutex_lock ti) n m with
  | Returns m' => repeat_call recursive_mutex_unlock n m'
  | Blocks m' => Blocks m'
  end.

(** *** Interleavings

    The same two functions cut at their accesses to the shared mutex:
    a program counter per thread, one shared access per step. *)
Inductive pc : Type :=
| Outside
| LockEntry
| LockCounted (count : Z)
| LockSpin (then_set_owner : bool)
| LockSetOwner
| UnlockEntry
| UnlockClearOwner
| UnlockSpinUnlock.

(** One step of thread [ti]; [None] when it cannot move (it spins, or it
    is outside of both functions). *)
Definition step (ti : tid) (p : pc) (m : recursive_mutex_t)
  : option (pc * recursive_mutex_t) :=
  match p with
  | Outside => None
  | LockEntry =>
      let '(count, m) := atomic_add_return 1 m in Some (LockCounted count, m)
  | LockCounted count =>
      if count =? 1 then Some (LockSpin true, m)
      else if negb (owner_is ti m) then Some (LockSpin false, m)
      else Some (Outside, m)
  | LockSpin then_set_owner =>
      match spin_lock ti m with
      | Some m => Some (if then_set_owner then LockSetOwner else Outside, m)
      | None => None
      end
  | LockSetOwner => Some (Outside, set_owner (Some ti) m)
  | UnlockEntry =>
      let '(count, m) := atomic_sub_return 1 m in
      if count =? 0 then Some (UnlockClearOwner, m) else Some (Outside, m)
  | UnlockClearOwner => Some (UnlockSpinUnlock, set_owner None m)
  | UnlockSpinUnlock => Some (Outside, spin_unlock m)
  end.

Inductive call : Type := Acquire | Release.

Definition entry (c : call) : pc :=
  match c with Acquire => LockEntry | Release => UnlockEntry end.

(** A thread: where it is, and the calls it has still to make. *)
Record thread : Type := { at_pc : pc; todo : list call }.

Record config : Type := {
  mutex : recursive_mutex_t;
  threads : tid -> thread
}.

Definition update (ths : tid -> thread) (ti : tid) (th : thread) : tid -> thread :=
  fun t => if Nat.eqb t ti then th else ths t.

(** Thread [ti] is scheduled for one step: it enters its next call when
    it is outside, and otherwise moves inside the call it is in. *)
Definition schedule1 (ti : tid) (c : config) : option config :=
  let th := threads c ti in
  match at_pc th with
  | Outside =>
      match todo th with
      | [] => None
      | k :: rest =>
          Some {| mutex := mutex c;
                  threads := update (threads c) ti {| at_pc := entry k; todo := rest |} |}
      end
  | p =>
      match step ti p (mutex c) with
      | Some (p', m') =>
          Some {| mutex := m';
                  threads := update (threads c) ti {| at_pc := p'; todo := todo th |} |}
      | None => None
      end
  end.

(** A schedule is the list of the threads that move, in order; [None]
    when a thread that cannot move is scheduled. *)
Fixpoint run (sched : list tid) (c : config) : option config :=
  match sched with
  | [] => Some c
  | ti :: rest =>
      match schedule1 ti c with
      | Some c' => run rest c'
      | None => None
      end
  end.

Definition boot (programs : tid -> list call) : config :=
  {| mutex := recursive_mutex_init;
     threads := fun t => {| at_pc := Outside; todo := programs t |} |}.

(** One call stepped to its end by a thread that is alone. *)
Fixpoint solo (fuel : nat) (ti : tid) (p : pc) (m : recursive_mutex_t) : outcome :=
  match p with
  | Outside => Returns m
  | _ =>
      match fuel with
      | O => Blocks m
      | S fuel' =>
          match step ti p m with
          | Some (p', m') => solo fuel' ti p' m'
          | None => Blocks m
          end
      end
  end.

(** The mutex held by [ti] at depth [c]. *)
Definition held (ti : tid) (c : Z) : recursive_mutex_t :=
  {| count := wrap32 c;
     lock := {| holder := Some ti; acquisitions := 1 |};
     owner := Some ti |}.

(** The mutex free again after one underlying acquisition. *)
Definition released : recursive_mutex_t :=
  {| count := 0; lock := {| holder := None; acquisitions := 1 |}; owner := None |}.

(** Three threads: 1 takes and releases the mutex, 2 and 3 take it, 3
    takes it again. *)
Definition contenders (t : tid) : list call :=
  match t with
  | 1%nat => [Acquire; Release]
  | 2%nat => [Acquire]
  | 3%nat => [Acquire; Acquire]
  | _ => []
  end.

(** Thread 1 takes the mutex and starts to release it, the counter is
    back at 0; threads 2 and 3 arrive and spin on the lock. *)
Definition until_both_spin : list tid :=
  [1; 1; 1; 1; 1; 1; 1; 2; 2; 2; 3; 3; 3]%nat.

(** Thread 1 ends its release and thread 3 gets the spin lock. *)
Definition until_3_wins : list tid := (until_both_spin ++ [1; 1; 3])%nat.

(** Thread 3 enters [recursive_mutex_lock] again, up to its spin. *)
Definition until_3_reenters : list tid := (until_3_wins ++ [3; 3; 3])%nat.

(** What is looked at in a configuration: the mutex, and where the
    threads 1, 2 and 3 are. *)
Definition observe (c : option config) : option (recursive_mutex_t * pc * pc * pc) :=
  match c with
  | Some c =>
      Some (mutex c, at_pc (threads c 1%nat), at_pc (threads c 2%nat),
            at_pc (threads c 3%nat))
  | None => None
  end.

End RecursiveMutex.

(** ** A small file system to run the code on *)

Module Toy.

(** Entries with their attributes, by branch path, and the union paths
    that carry a whiteout. *)
Record toy_fs : Type := {
  files : list (cstring * kstat);
  whiteouts : list cstring
}.

Fixpoint stat_of (p : cstring) (l : list (cstring * kstat)) : option kstat :=
  match l with
  | [] => None
  | (q, a) :: l' => if cstring_eqb p q then Some a else stat_of p l'
  end.

Definition no_stat : kstat := {| st_mode := 0; st_uid := 0; st_gid := 0 |}.

Definition toy_kernel (context : hepunion_sb_info) (euid egid : Z) : kernel toy_fs := {|
  vfs_lstat := fun w real_path =>
    match stat_of real_path (files w) with Some _ => 0 | None => - ENOENT end;
  get_file_attr_worker := fun w _ real_path =>
    match stat_of real_path (files w) with
    | Some a => (0, a)
    | None => (- ENOENT, no_stat)
    end;
  find_whiteout := fun w path =>
    if existsb (cstring_eqb path) (whiteouts w) then 0 else - ENOENT;
  create_copyup := fun w path ro_path =>
    let real_path := read_write_branch context ++ path in
    match stat_of ro_path (files w) with
    | Some a =>
        (0, real_path,
         {| files := (real_path, a) :: files w; whiteouts := whiteouts w |})
    | None => (- ENOENT, real_path, w)
    end;
  sys_geteuid := euid;
  sys_getegid := egid
|}.

Definition mount : hepunion_sb_info :=
  {| read_only_branch := cstr "/ro"; read_write_branch := cstr "/rw" |}.

(** A directory [rwxr-xr-x] and a file [rw-r--r--] of user 1000. *)
Definition dir_755 : kstat := {| st_mode := 493; st_uid := 1000; st_gid := 1000 |}.
Definition file_644 : kstat := {| st_mode := 420; st_uid := 1000; st_gid := 1000 |}.

Definition user : kernel toy_fs := toy_kernel mount 1000 1000.

Definition boot (w : toy_fs) : state toy_fs := {| fs := w; trace := [] |}.

(** [/a/b/f] in both branches. *)
Definition both_branches : toy_fs := {|
  files := [(cstr "/ro/a", dir_755); (cstr "/ro/a/b", dir_755);
            (cstr "/ro/a/b/f", file_644); (cstr "/rw/a/b/f", file_644);
            (cstr "/rw", dir_755)];
  whiteouts := []
|}.

(** [/a/f] in the read-only branch only, under a whiteout. *)
Definition deleted : toy_fs := {|
  files := [(cstr "/ro/a", dir_755); (cstr "/ro/a/f", file_644)];
  whiteouts := [cstr "/a/f"]
|}.

(** A mount whose read-only root is longer than the writable one, and a
    union path whose writable form fits [PATH_MAX] while its read-only
    form does not. *)
Definition lopsided : hepunion_sb_info :=
  {| read_only_branch := cstr "/read-only-branch"; read_write_branch := cstr "/rw" |}.

Definition long_name : cstring := slash :: repeat "a"%char 4085.

Definition long_file : toy_fs := {|
  files := [(cstr "/rw" ++ long_name, file_644)];
  whiteouts := []
|}.

Definition nothing : toy_fs := {| files := []; whiteouts := [] |}.

(** Inodes without and with a link. *)
Definition unlinked : inode := {| i_nlink := 0; i_dentry := None |}.
Definition linked : inode := {| i_nlink := 1; i_dentry := None |}.

(** The entry of the union path [/a] in the read-only branch [/ro]. *)
Definition ro_a : dentry := entry_of [cstr "ro"; cstr "a"].

(** A mount with short roots, and under its read-only root [/r] an entry
    nine directories deep, each name 250 characters long. *)
Definition short_roots : hepunion_sb_info :=
  {| read_only_branch := cstr "/r"; read_write_branch := cstr "/w" |}.

Definition deep : dentry :=
  entry_of (cstr "r" :: repeat (repeat "a"%char 250) 9).

End Toy.

(** * Specifications *)

(** ** What the permission guard is to decide *)

Definition has_exec (st_mode : Z) : bool :=
  Z.testbit st_mode 0 || Z.testbit st_mode 3 || Z.testbit st_mode 6.

Definition owner_triplet (st_mode : Z) : Z := Z.land (Z.shiftr st_mode 6) 7.
Definition group_triplet (st_mode : Z) : Z := Z.land (Z.shiftr st_mode 3) 7.
Definition other_triplet (st_mode : Z) : Z := Z.land st_mode 7.

Definition selected_triplet (euid egid : Z) (stbuf : kstat) : Z :=
  if euid =? st_uid stbuf then owner_triplet (st_mode stbuf)
  else if egid =? st_gid stbuf then group_triplet (st_mode stbuf)
  else other_triplet (st_mode stbuf).

(** Every requested bit is in the triplet. *)
Definition all_bits_in (requested triplet : Z) : bool :=
  Z.land requested triplet =? requested.

Definition granted (euid egid requested : Z) (stbuf : kstat) : bool :=
  if euid =? 0 then
    if Z.testbit requested 0 then has_exec (st_mode stbuf) else true
  else all_bits_in requested (selected_triplet euid egid stbuf).

(** The state after one more call has been recorded. *)
Definition record_calls {world} (s : state world) (es : list event) : state world :=
  {| fs := fs s; trace := trace s ++ es |}.

(** ** What the traversal check is to look at *)

(** Offsets of the slashes of [s], the head of [s] being at offset [i]. *)
Fixpoint slash_offsets (s : cstring) (i : nat) : list nat :=
  match s with
  | [] => []
  | x :: s' =>
      if Ascii.eqb x slash then i :: slash_offsets s' (S i)
      else slash_offsets s' (S i)
  end.

(** The ancestor directories of an absolute path below the root, from
    the top down to the parent of the final component: the text before
    each slash but the leading one.  [ancestors "/a/b/c"] is
    ["/a"; "/a/b"]; [ancestors "/a"] is empty. *)
Definition ancestors (path : cstring) : list cstring :=
  map (fun d => firstn d path) (slash_offsets (tl path) 1%nat).

Section TraversalSpec.

Variable world : Type.
Variable K : kernel world.
Variable context : hepunion_sb_info.

(** The answer of [can_access] in the file system [w]. *)
Definition access_value (w : world) (path real_path : cstring) (mode : Z) : Z :=
  let '(err, stbuf) := get_file_attr_worker K w path real_path in
  access_decision (sys_geteuid K) (sys_getegid K) mode err stbuf.

(** A directory of the union, in the read-only branch. *)
Definition ro_dir (d : cstring) : cstring := read_only_branch context ++ d.

Definition lookup (d : cstring) : event := EvGetAttr d (ro_dir d).

Definition denied (w : world) (d : cstring) : bool :=
  access_value w d (ro_dir d) X_OK <? 0.

(** The directories that get checked: all up to the first one denied,
    that one included. *)
Fixpoint checked (w : world) (dirs : list cstring) : list cstring :=
  match dirs with
  | [] => []
  | d :: rest => if denied w d then [d] else d :: checked w rest
  end.

(** The answer of the walk: that of the first directory denied, 0 when
    there is none. *)
Definition traversal_verdict (w : world) (dirs : list cstring) : Z :=
  match find (denied w) dirs with
  | Some d => access_value w d (ro_dir d) X_OK
  | None => 0
  end.

(** Execute permission checked on each directory in turn, against the
    read-only branch, stopping at the first negative answer. *)
Fixpoint check_each (dirs : list cstring) : M (state world) Z :=
  match dirs with
  | [] => ret 0
  | d :: rest =>
      err <- can_access K d (ro_dir d) X_OK ;;
      if err <? 0 then ret err else check_each rest
  end.

End TraversalSpec.

(** ** What the resolver is told about a path *)

Section ResolverSpec.

Variable world : Type.
Variable K : kernel world.
Variable context : hepunion_sb_info.

(** The two branch forms of a union path. *)
Definition rw_path (path : cstring) : cstring := read_write_branch context ++ path.
Definition ro_path (path : cstring) : cstring := read_only_branch context ++ path.

(** A branch path is present when its stat succeeds, absent when its
    stat answers that there is no such entry. *)
Definition present (w : world) (branch_path : cstring) : Prop :=
  0 <= vfs_lstat K w branch_path.

Definition absent (w : world) (branch_path : cstring) : Prop :=
  vfs_lstat K w branch_path = - ENOENT.

(** A whiteout hit: [find_whiteout] answers 0, the value the read-only
    branch of [find_file] turns into [-ENOENT]. *)
Definition whiteout_hit (w : world) (path : cstring) : Prop :=
  find_whiteout K w path = 0.

End ResolverSpec.

(** The calls of a lookup that ends at a whiteout: the stats of the
    branches the flags let it turn to, and the whiteout lookup. *)
Definition hidden_calls (h : hepunion_h) (context : hepunion_sb_info)
    (path : cstring) (flags : Z) : list event :=
  if is_flag_set flags (MUST_READ_ONLY h) then
    [EvLstat (ro_path context path); EvFindWhiteout path]
  else if is_flag_set flags (MUST_READ_WRITE h) then
    [EvLstat (rw_path context path)]
  else
    [EvLstat (rw_path context path); EvLstat (ro_path context path);
     EvFindWhiteout path].

(** The parent directory of an absolute path: the text before its last
    slash, and the root for an entry directly under the root. *)
Definition dirname (p : cstring) : cstring :=
  match strrchr p slash with
  | Some O => [slash]
  | Some n => firstn n p
  | None => []
  end.

(** ** What the calls of a run are *)

Definition is_get_attr (e : event) : Prop :=
  match e with EvGetAttr _ _ => True | _ => False end.

Definition not_create_copyup (e : event) : Prop :=
  match e with EvCreateCopyup _ _ => False | _ => True end.


(** [s'] is [s] with more calls recorded, all of them satisfying [P]. *)
Definition adds {world : Type} (P : event -> Prop) (s s' : state world) : Prop :=
  exists evs, trace s' = trace s ++ evs /\ Forall P evs.

(** The calls of [find_file] up to its traversal check, when the lookup
    gets as far as the read-only branch. *)
Definition lookup_calls (h : hepunion_h) (context : hepunion_sb_info)
    (path : cstring) (flags : Z) : list event :=
  (if is_flag_set flags (MUST_READ_ONLY h) then []
   else [EvLstat (rw_path context path)])
  ++ [EvLstat (ro_path context path)]
  ++ (if is_flag_set flags (IGNORE_WHITEOUT h) then []
      else [EvFindWhiteout path]).

(** ** What an entry is called *)

(** The absolute path of an entry, [/n1/.../nk]; empty for the root. *)
Fixpoint path_text (d : dentry) : cstring :=
  match d with
  | Root => []
  | Dentry d_name d_parent => path_text d_parent ++ slash :: d_name
  end.

(** The length of the name of the ancestor directly under the root. *)
Fixpoint top_namelen (d : dentry) : option Z :=
  match d with
  | Root => None
  | Dentry d_name d_parent =>
      match top_namelen d_parent with
      | Some n => Some n
      | None => Some (strlen d_name)
      end
  end.

(** ** More of the small file system *)

Module Samples.
Import Toy.

(** [/a/f] in the read-only branch only, no whiteout. *)
Definition ro_only : toy_fs := {|
  files := [(cstr "/ro/a", dir_755); (cstr "/ro/a/f", file_644)];
  whiteouts := []
|}.

(** [/a/f] in the writable branch, under a directory [/a] that nobody
    but its owner, user 0, may enter. *)
Definition dir_700 : kstat := {| st_mode := 448; st_uid := 0; st_gid := 0 |}.

Definition closed_dir : toy_fs := {|
  files := [(cstr "/ro/a", dir_700); (cstr "/rw/a/f", file_644)];
  whiteouts := []
|}.



(** A mount whose read-only root fills [PATH_MAX]. *)
Definition huge_root : hepunion_sb_info :=
  {| read_only_branch := slash :: repeat "r"%char 4095;
     read_write_branch := cstr "/rw" |}.

(** A mount whose writable root starts with the read-only root. *)
Definition nested_roots : hepunion_sb_info :=
  {| read_only_branch := cstr "/mnt/u"; read_write_branch := cstr "/mnt/u-rw" |}.

(** An entry seventeen directories deep, each name 255 characters
    long: its path does not fit [MAX_PATH]. *)
Definition too_deep : dentry := entry_of (repeat (repeat "a"%char 255) 17).

End Samples.

(** * Proofs *)

Unset Implicit Arguments.

(** ** Bits *)

Lemma small_bits (m i : Z) : 0 <= m < 8 -> Z.testbit m i = true -> 0 <= i < 3.
Proof.
  intros Hm Hb.
  destruct (Z.ltb_spec i 0) as [Hn | Hn].
  - rewrite Z.testbit_neg_r in Hb by assumption. discriminate.
  - split; [assumption|].
    destruct (Z.ltb_spec i 3) as [Hlt | Hge]; [assumption|].
    destruct (Z.eq_dec m 0) as [-> | Hnz].
    + rewrite Z.bits_0 in Hb. discriminate.
    + rewrite Z.bits_above_log2 in Hb; [discriminate | lia |].
      assert (Z.log2 m < 3) by (apply Z.log2_lt_pow2; simpl; lia).
      lia.
Qed.

Lemma seven_bits (i : Z) : 0 <= i < 3 -> Z.testbit 7 i = true.
Proof.
  intros Hi.
  assert (i = 0 \/ i = 1 \/ i = 2) as [-> | [-> | ->]] by lia; reflexivity.
Qed.

(** Comparing a shifted request with the mode is comparing the request
    with the triplet at that shift. *)
Lemma shifted_request (m s stm : Z) :
  0 <= m < 8 -> 0 <= s ->
  (Z.land (Z.shiftl m s) stm =? Z.shiftl m s)
  = (Z.land m (Z.land (Z.shiftr stm s) 7) =? m).
Proof.
  intros Hm Hs.
  apply eq_true_iff_eq. rewrite !Z.eqb_eq. split; intros H.
  - apply Z.bits_inj'. intros i Hi.
    rewrite !Z.land_spec.
    destruct (Z.testbit m i) eqn:Hb; [|reflexivity].
    pose proof (small_bits m i Hm Hb) as Hi3.
    rewrite (seven_bits i Hi3), andb_true_r. simpl.
    rewrite Z.shiftr_spec by assumption.
    assert (Hx : Z.testbit (Z.land (Z.shiftl m s) stm) (i + s)
                 = Z.testbit (Z.shiftl m s) (i + s)) by (rewrite H; reflexivity).
    rewrite Z.land_spec, Z.shiftl_spec in Hx by lia.
    replace (i + s - s) with i in Hx by lia.
    rewrite Hb in Hx. exact Hx.
  - apply Z.bits_inj'. intros i Hi.
    rewrite Z.land_spec.
    destruct (Z.testbit (Z.shiftl m s) i) eqn:Hb; [|reflexivity].
    simpl.
    rewrite Z.shiftl_spec in Hb by assumption.
    assert (His : 0 <= i - s).
    { destruct (Z.ltb_spec (i - s) 0); [|assumption].
      rewrite Z.testbit_neg_r in Hb by assumption. discriminate. }
    assert (Hx : Z.testbit (Z.land m (Z.land (Z.shiftr stm s) 7)) (i - s)
                 = Z.testbit m (i - s)) by (rewrite H; reflexivity).
    rewrite !Z.land_spec, Z.shiftr_spec, Hb in Hx by assumption.
    replace (i - s + s) with i in Hx by lia.
    simpl in Hx. apply andb_true_iff in Hx. tauto.
Qed.

Lemma nonzero_land_bit (m : Z) (k : Z) :
  0 <= k -> nonzero (Z.land (Z.shiftl 1 k) m) = Z.testbit m k.
Proof.
  intros Hk. unfold nonzero.
  destruct (Z.testbit m k) eqn:Hb.
  - apply negb_true_iff, Z.eqb_neq. intros H0.
    assert (Hx : Z.testbit (Z.land (Z.shiftl 1 k) m) k = false)
      by (rewrite H0; apply Z.bits_0).
    rewrite Z.land_spec, Z.shiftl_spec, Z.sub_diag, Hb in Hx by assumption.
    discriminate.
  - apply negb_false_iff, Z.eqb_eq.
    apply Z.bits_inj'. intros i Hi.
    rewrite Z.land_spec, Z.bits_0, Z.shiftl_spec by assumption.
    destruct (Z.eq_dec i k) as [-> | Hne].
    + rewrite Hb. apply andb_false_r.
    + replace (Z.testbit 1 (i - k)) with false; [reflexivity|].
      symmetry.
      destruct (Z.ltb_spec (i - k) 0).
      * apply Z.testbit_neg_r; assumption.
      * apply (Z.bits_above_log2 1 (i - k)); simpl; lia.
Qed.

(** Without any execute bit in the mode, no shift of a request for
    execution is contained in it. *)
Lemma exec_request_refused (m s stm : Z) :
  0 <= s -> Z.testbit m 0 = true -> Z.testbit stm s = false ->
  (Z.land (Z.shiftl m s) stm =? Z.shiftl m s) = false.
Proof.
  intros Hs Hm Hst. apply Z.eqb_neq. intros H.
  assert (Hx : Z.testbit (Z.land (Z.shiftl m s) stm) s = Z.testbit (Z.shiftl m s) s)
    by (rewrite H; reflexivity).
  rewrite Z.land_spec, Z.shiftl_spec, Z.sub_diag, Hm, Hst in Hx by assumption.
  discriminate.
Qed.

Section PermissionGuard.

Variable world : Type.
Variable K : kernel world.

(** C4.  When the attributes of the entry are obtained and the request
    is a set of read, write and execute bits, [can_access] records that
    one lookup and returns 0 exactly when the request is [granted], and
    [-EACCESS] otherwise: for the superuser a request with the execute
    bit is granted iff one of the three triplets has its execute bit,
    and any other request always; for anyone else the owner, group or
    other triplet is selected in that order and the request is granted
    iff all its bits are in that triplet. *)
Theorem can_access_decides (path real_path : cstring) (mode : Z)
    (s : state world) (stbuf : kstat) :
  get_file_attr_worker K (fs s) path real_path = (0, stbuf) ->
  0 <= mode < 8 ->
  can_access K path real_path mode s
  = Done (if granted (sys_geteuid K) (sys_getegid K) mode stbuf then 0 else - EACCESS)
         (record_calls s [EvGetAttr path real_path]).
Proof.
  intros Hattr Hmode.
  unfold can_access, bind, call_get_file_attr_worker. rewrite Hattr.
  unfold ret, record_calls. f_equal.
  unfold access_decision, granted, root_shortcut.
  change (nonzero 0) with false. cbv iota.
  assert (E1 : nonzero (Z.land mode X_OK) = Z.testbit mode 0).
  { rewrite Z.land_comm. exact (nonzero_land_bit mode 0 (Z.le_refl 0)). }
  assert (E2 :
    nonzero (Z.land X_OK (st_mode stbuf))
    || nonzero (Z.land (Z.shiftl X_OK RIGHTS_MASK) (st_mode stbuf))
    || nonzero (Z.land (Z.shiftl X_OK (RIGHTS_MASK * 2)) (st_mode stbuf))
    = has_exec (st_mode stbuf)).
  { unfold has_exec.
    rewrite <- (nonzero_land_bit (st_mode stbuf) 0), <- (nonzero_land_bit (st_mode stbuf) 3),
      <- (nonzero_land_bit (st_mode stbuf) 6) by lia.
    reflexivity. }
  rewrite E1, E2. clear E1 E2.
  assert (Htriplet :
    (Z.land (shift_mode (sys_geteuid K) (sys_getegid K) mode stbuf) (st_mode stbuf)
       =? shift_mode (sys_geteuid K) (sys_getegid K) mode stbuf)
    = all_bits_in mode (selected_triplet (sys_geteuid K) (sys_getegid K) stbuf)).
  { unfold shift_mode, selected_triplet, all_bits_in.
    destruct (sys_geteuid K =? st_uid stbuf).
    - apply shifted_request; [assumption | unfold RIGHTS_MASK; lia].
    - destruct (sys_getegid K =? st_gid stbuf).
      + apply shifted_request; [assumption | unfold RIGHTS_MASK; lia].
      + unfold other_triplet.
        exact (shifted_request mode 0 (st_mode stbuf) Hmode (Z.le_refl 0)). }
  destruct (sys_geteuid K =? 0) eqn:Hroot.
  - destruct (Z.testbit mode 0) eqn:Hx; [|reflexivity].
    destruct (has_exec (st_mode stbuf)) eqn:Hexec; [reflexivity|].
    unfold has_exec in Hexec.
    apply orb_false_iff in Hexec. destruct Hexec as [Hexec H6].
    apply orb_false_iff in Hexec. destruct Hexec as [H0 H3].
    assert (Hdeny :
      (Z.land (shift_mode (sys_geteuid K) (sys_getegid K) mode stbuf) (st_mode stbuf)
         =? shift_mode (sys_geteuid K) (sys_getegid K) mode stbuf) = false).
    { unfold shift_mode.
      destruct (sys_geteuid K =? st_uid stbuf).
      - apply exec_request_refused; [unfold RIGHTS_MASK; lia | assumption | assumption].
      - destruct (sys_getegid K =? st_gid stbuf).
        + apply exec_request_refused; [unfold RIGHTS_MASK; lia | assumption | assumption].
        + exact (exec_request_refused mode 0 (st_mode stbuf) (Z.le_refl 0) Hx H0). }
    rewrite Hdeny. reflexivity.
  - rewrite Htriplet.
    destruct (all_bits_in mode _); reflexivity.
Qed.

End PermissionGuard.

(** ** Strings *)

Lemma strlen_app (a b : cstring) : strlen (a ++ b) = strlen a + strlen b.
Proof. unfold strlen. rewrite length_app. lia. Qed.

Lemma snprintf_fits (size : Z) (s : cstring) :
  strlen s < size -> snprintf size s = (strlen s, s).
Proof.
  intros H. unfold snprintf. f_equal.
  apply firstn_all2. unfold strlen in H. lia.
Qed.


Lemma find_from_none (c : ascii) (s : cstring) (i : nat) :
  c = slash -> find_from c s i = None -> slash_offsets s i = [].
Proof.
  intros ->. revert i. induction s as [|x s IH]; intros i H; simpl in *.
  - reflexivity.
  - destruct (Ascii.eqb x slash); [discriminate | auto].
Qed.

Lemma find_from_some (s : cstring) (i d : nat) :
  find_from slash s i = Some d ->
  (i <= d < i + List.length s)%nat
  /\ slash_offsets s i = d :: slash_offsets (skipn (S (d - i)) s) (S d).
Proof.
  revert i. induction s as [|x s IH]; intros i H; simpl in *.
  - discriminate.
  - destruct (Ascii.eqb x slash).
    + injection H as <-. split; [lia|].
      rewrite Nat.sub_diag. reflexivity.
    + destruct (IH _ H) as [Hr Hs]. split; [lia|].
      rewrite Hs. replace (d - i)%nat with (S (d - S i)) by lia.
      reflexivity.
Qed.

Lemma find_last_zero (s : cstring) (i : nat) :
  find_last slash s (S i) = None -> slash_offsets s (S i) = [].
Proof.
  revert i. induction s as [|x s IH]; intros i H; simpl in *.
  - reflexivity.
  - destruct (find_last slash s (S (S i))) eqn:E; [discriminate|].
    destruct (Ascii.eqb x slash); [discriminate|]. auto.
Qed.

Lemma find_last_ge (s : cstring) (i j : nat) :
  find_last slash s i = Some j -> (i <= j)%nat.
Proof.
  revert i. induction s as [|x s IH]; intros i H; simpl in *.
  - discriminate.
  - destruct (find_last slash s (S i)) eqn:E.
    + injection H as <-. specialize (IH _ E). lia.
    + destruct (Ascii.eqb x slash); [injection H as <-; lia | discriminate].
Qed.

(** A path whose last slash is its first character has no ancestors. *)
Lemma only_leading_slash (path : cstring) :
  strrchr path slash = Some 0%nat -> ancestors path = [].
Proof.
  unfold strrchr, ancestors. destruct path as [|x s]; simpl; [discriminate|].
  destruct (find_last slash s 1) eqn:E.
  - intros H. injection H as ->. apply find_last_ge in E. lia.
  - intros _. rewrite (find_last_zero _ _ E). reflexivity.
Qed.

Lemma firstn_slice (s : cstring) (a b : nat) :
  (a <= b)%nat -> firstn a s ++ slice s a b = firstn b s.
Proof.
  unfold slice. revert s b.
  induction a as [|a IH]; intros s b Hab.
  - rewrite Nat.sub_0_r. reflexivity.
  - destruct b as [|b]; [lia|].
    destruct s as [|x s]; simpl.
    + rewrite firstn_nil. reflexivity.
    + f_equal. apply IH. lia.
Qed.

Lemma slice_length (s : cstring) (a b : nat) :
  (a <= b <= List.length s)%nat -> List.length (slice s a b) = (b - a)%nat.
Proof.
  intros H. unfold slice. rewrite length_firstn, length_skipn. lia.
Qed.

(** ** The traversal check *)

Section Traversal.

Variable world : Type.
Variable K : kernel world.
Variable context : hepunion_sb_info.

Lemma record_calls_nil (s : state world) : record_calls s [] = s.
Proof. destruct s. unfold record_calls. simpl. rewrite app_nil_r. reflexivity. Qed.

Lemma record_calls_app (s : state world) (a b : list event) :
  record_calls (record_calls s a) b = record_calls s (a ++ b).
Proof. unfold record_calls. simpl. rewrite app_assoc. reflexivity. Qed.

Lemma can_access_run (path real_path : cstring) (mode : Z) (s : state world) :
  can_access K path real_path mode s
  = Done (access_value K (fs s) path real_path mode)
         (record_calls s [EvGetAttr path real_path]).
Proof.
  unfold can_access, access_value, bind, call_get_file_attr_worker.
  destruct (get_file_attr_worker K (fs s) path real_path). reflexivity.
Qed.

Lemma strncat_ok (dest piece : cstring) (s : state world) :
  strlen dest + strlen piece + 1 <= PATH_MAX ->
  strncat dest piece s = Done (dest ++ piece) s.
Proof.
  intros H. unfold strncat.
  destruct (Z.leb_spec (strlen dest + strlen piece + 1) PATH_MAX); [reflexivity | lia].
Qed.

(** The loop of [can_traverse], entered with the scan for the next slash
    started at offset [k], checks the directories that end at the
    slashes from [k] on. *)
Lemma traverse_loop_walk (path : cstring) (fuel old k : nat) (s : state world) :
  (1 <= old <= k)%nat -> (k <= List.length path)%nat ->
  (List.length path - k <= fuel)%nat ->
  strlen (read_only_branch context) + strlen path <= PATH_MAX ->
  traverse_loop K fuel path (firstn old path)
    (read_only_branch context ++ firstn old path) old (strchr path k slash) s
  = check_each K context
      (map (fun d => firstn d path) (slash_offsets (skipn k path) k)) s.
Proof.
  revert old k s. induction fuel as [|fuel IH]; intros old k s Hold Hk Hfuel Hfit;
    unfold strchr; destruct (find_from slash (skipn k path) k) as [d|] eqn:E.
  - apply find_from_some in E. rewrite length_skipn in E. lia.
  - rewrite (find_from_none slash _ _ eq_refl E). reflexivity.
  - destruct (find_from_some _ _ _ E) as [Hd Hs].
    rewrite length_skipn in Hd. rewrite Hs, skipn_skipn.
    replace (S (d - k) + k)%nat with (S d) by lia.
    cbn [traverse_loop map check_each]. unfold bind at 1.
    assert (Hlen : strlen (slice path old d) = Z.of_nat d - Z.of_nat old).
    { unfold strlen. rewrite slice_length by lia. lia. }
    assert (Hpre : strlen (firstn old path) = Z.of_nat old).
    { unfold strlen. rewrite length_firstn. lia. }
    unfold strlen in Hfit.
    rewrite strncat_ok by lia.
    unfold bind at 1.
    rewrite strncat_ok by (rewrite strlen_app; unfold strlen at 1; lia).
    rewrite <- app_assoc, (firstn_slice path old d) by lia.
    unfold ro_dir, bind. rewrite can_access_run.
    destruct (access_value K (fs s) (firstn d path)
                (read_only_branch context ++ firstn d path) X_OK <? 0).
    + reflexivity.
    + apply IH; unfold strlen; lia.
  - rewrite (find_from_none slash _ _ eq_refl E). reflexivity.
Qed.

Lemma can_traverse_walk (path : cstring) (s : state world) :
  hd_error path = Some slash ->
  strlen (read_only_branch context) + strlen path <= PATH_MAX ->
  can_traverse K context path s = check_each K context (ancestors path) s.
Proof.
  intros Hhd Hfit.
  destruct path as [|x rest]; [discriminate|].
  injection Hhd as ->.
  unfold can_traverse.
  rewrite (snprintf_fits PATH_MAX [slash]) by reflexivity.
  destruct (snprintf PATH_MAX (read_only_branch context ++ [slash]))
    as [n long_path] eqn:Esn.
  assert (Hn : n = strlen (read_only_branch context) + 1).
  { unfold snprintf in Esn. injection Esn as <- _. apply strlen_app. }
  assert (Hgt : (PATH_MAX <? n) = false).
  { apply Z.ltb_ge. unfold strlen in *. simpl List.length in Hfit. lia. }
  rewrite Hgt.
  destruct (strrchr (slash :: rest) slash) as [[|j]|] eqn:Er.
  - rewrite (only_leading_slash _ Er). reflexivity.
  - assert (Hrest : rest <> []).
    { intros ->. unfold strrchr in Er. simpl in Er. discriminate. }
    assert (Hlong : long_path = read_only_branch context ++ [slash]).
    { rewrite snprintf_fits in Esn.
      - injection Esn as _ <-. reflexivity.
      - rewrite strlen_app. unfold strlen in *. simpl List.length in *.
        destruct rest; [contradiction | simpl List.length in Hfit; lia]. }
    rewrite Hlong. simpl snd.
    apply (traverse_loop_walk (slash :: rest) (List.length (slash :: rest)) 1 1 s);
      simpl List.length; try lia; exact Hfit.
  - unfold strrchr in Er. simpl in Er.
    destruct (find_last slash rest 1); discriminate.
Qed.

Lemma check_each_closed (dirs : list cstring) (s : state world) :
  check_each K context dirs s
  = Done (traversal_verdict K context (fs s) dirs)
         (record_calls s (map (lookup context) (checked K context (fs s) dirs))).
Proof.
  revert s. induction dirs as [|d rest IH]; intros s.
  - simpl. rewrite record_calls_nil. reflexivity.
  - cbn [check_each]. unfold bind. rewrite can_access_run.
    unfold traversal_verdict. cbn [find checked map]. unfold denied at 1 3.
    destruct (access_value K (fs s) d (ro_dir context d) X_OK <? 0) eqn:E.
    + reflexivity.
    + rewrite IH. rewrite record_calls_app. reflexivity.
Qed.

(** C5.  For an absolute union path that fits the buffers together with
    the read-only root, [can_traverse] looks, through [can_access] with
    an execute request, at each ancestor directory below the root in
    turn, top down to the parent of the final component, each one under
    the read-only branch; it stops at the first one that is denied or
    fails and returns that answer, and returns 0 when there is none.
    When the only slash of the path is the leading one it returns 0 and
    looks at nothing. *)
Theorem can_traverse_checks_ancestors (path : cstring) (s : state world) :
  hd_error path = Some slash ->
  strlen (read_only_branch context) + strlen path <= PATH_MAX ->
  can_traverse K context path s
  = Done (traversal_verdict K context (fs s) (ancestors path))
         (record_calls s
            (map (lookup context) (checked K context (fs s) (ancestors path))))
  /\ (strrchr path slash = Some 0%nat -> can_traverse K context path s = Done 0 s).
Proof.
  intros Hhd Hfit. split.
  - rewrite can_traverse_walk by assumption. apply check_each_closed.
  - intros Hroot. rewrite can_traverse_walk by assumption.
    rewrite (only_leading_slash _ Hroot). reflexivity.
Qed.

End Traversal.

(** ** Removal *)

Section Removal.

Variable world : Type.
Variable K : kernel world.

(** The two ways through [can_remove], for a text whose last slash is at
    offset [p] (the parent fitting the buffer): when [p] is 0 the test
    [parent == real_path] holds, [-EACCES] is returned and nothing is
    looked up; otherwise the answer is that of [can_access] to a write
    request on the text before that slash, the parent directory. *)
Lemma can_remove_asks_parent (path real_path : cstring) (p : nat) (s : state world) :
  strrchr real_path slash = Some p ->
  Z.of_nat p < PATH_MAX ->
  can_remove K path real_path s
  = if (p =? 0)%nat then Done (- EACCES) s
    else can_access K path (dirname real_path) W_OK s.
Proof.
  intros Hp Hfit. unfold can_remove, dirname. rewrite Hp.
  destruct p as [|p]; [reflexivity|].
  cbn [Nat.eqb].
  destruct (Z.leb_spec PATH_MAX (Z.of_nat (S p))); [lia|].
  unfold slice. rewrite Nat.sub_0_r. reflexivity.
Qed.

End Removal.

(** ** The resolver *)

Section Resolver.

Variable world : Type.
Variable h : hepunion_h.
Variable K : kernel world.
Variable context : hepunion_sb_info.

Lemma make_rw_path_fits (path : cstring) :
  strlen (rw_path context path) < PATH_MAX ->
  make_rw_path context path = (strlen (rw_path context path), rw_path context path).
Proof. apply snprintf_fits. Qed.

Lemma make_ro_path_fits (path : cstring) :
  strlen (ro_path context path) < PATH_MAX ->
  make_ro_path context path = (strlen (ro_path context path), ro_path context path).
Proof. apply snprintf_fits. Qed.

Lemma not_too_long (n : Z) : n < PATH_MAX -> (PATH_MAX <? n) = false.
Proof. intros H. apply Z.ltb_ge. lia. Qed.

(** C1.  When [MUST_READ_ONLY] is not among the flags, the writable form
    of the path fits [PATH_MAX], its stat succeeds and [can_traverse]
    succeeds, [find_file] returns [READ_WRITE] and leaves the writable
    branch path in [real_path]; the only calls made are that stat and
    those of [can_traverse]: neither the read-only branch nor the
    whiteouts are consulted. *)
Theorem find_file_writable_wins (path real_path : cstring) (flags : Z)
    (s s' : state world) :
  is_flag_set flags (MUST_READ_ONLY h) = false ->
  strlen (rw_path context path) < PATH_MAX ->
  present K (fs s) (rw_path context path) ->
  can_traverse K context path (record_calls s [EvLstat (rw_path context path)])
    = Done 0 s' ->
  find_file h K context path real_path flags s
  = Done (READ_WRITE h, rw_path context path) s'.
Proof.
  intros Hflag Hfit Hstat Htrav.
  unfold find_file. rewrite Hflag. cbn [negb].
  rewrite (make_rw_path_fits _ Hfit), (not_too_long _ Hfit).
  unfold bind at 1. unfold call_vfs_lstat.
  destruct (Z.ltb_spec (vfs_lstat K (fs s) (rw_path context path)) 0) as [Hneg|_].
  - unfold present in Hstat. lia.
  - unfold bind. fold (record_calls s [EvLstat (rw_path context path)]).
    rewrite Htrav. reflexivity.
Qed.

(** C3.  For a path absent from the writable branch, present in the
    read-only branch and hit by a whiteout (both branch forms fitting
    [PATH_MAX]), [find_file] without [IGNORE_WHITEOUT] and without
    [CREATE_COPYUP] returns [-ENOENT]; it makes no call but the stats and
    the whiteout lookup of [hidden_calls]: no traversal check is run. *)
Theorem find_file_whiteout_hides (path real_path : cstring) (flags : Z)
    (s : state world) :
  is_flag_set flags (IGNORE_WHITEOUT h) = false ->
  is_flag_set flags (CREATE_COPYUP h) = false ->
  strlen (rw_path context path) < PATH_MAX ->
  strlen (ro_path context path) < PATH_MAX ->
  absent K (fs s) (rw_path context path) ->
  present K (fs s) (ro_path context path) ->
  whiteout_hit K (fs s) path ->
  exists buf,
    find_file h K context path real_path flags s
    = Done (- ENOENT, buf) (record_calls s (hidden_calls h context path flags)).
Proof.
  intros Hign Hcopy Hrw Hro Habs Hpres Hwh.
  unfold absent in Habs. unfold present in Hpres. unfold whiteout_hit in Hwh.
  assert (Hfallback : forall buf (s1 : state world),
    fs s1 = fs s ->
    find_file_ro h K context path buf flags s1
    = Done (- ENOENT, ro_path context path)
           (record_calls s1 [EvLstat (ro_path context path); EvFindWhiteout path])).
  { intros buf s1 Hfs. unfold find_file_ro. rewrite Hcopy, Hign.
    rewrite (make_ro_path_fits _ Hro), (not_too_long _ Hro).
    unfold bind at 1. unfold call_vfs_lstat. rewrite Hfs.
    destruct (Z.ltb_spec (vfs_lstat K (fs s) (ro_path context path)) 0); [lia|].
    cbn [negb]. unfold bind, call_find_whiteout. cbn [fs trace].
    rewrite Hwh. change (0 =? 0) with true. cbv iota.
    unfold ret, record_calls. rewrite Hfs, <- app_assoc. reflexivity. }
  unfold find_file, hidden_calls.
  destruct (is_flag_set flags (MUST_READ_ONLY h)); cbn [negb].
  - eexists. apply Hfallback. reflexivity.
  - rewrite (make_rw_path_fits _ Hrw), (not_too_long _ Hrw).
    unfold bind, call_vfs_lstat. rewrite Habs.
    change (- ENOENT <? 0) with true. cbv iota.
    destruct (is_flag_set flags (MUST_READ_WRITE h)).
    + eexists. reflexivity.
    + eexists. rewrite Hfallback by reflexivity.
      unfold record_calls. cbn [fs trace]. rewrite <- app_assoc. reflexivity.
Qed.

(** C8, as the code has it.  When the form of the path in the branch
    [find_file] turns to first (the read-only branch under
    [MUST_READ_ONLY], the writable branch otherwise) is longer than
    [PATH_MAX], [find_file] returns [-ENAMETOOLONG] and has made no call
    at all. *)
Theorem find_file_too_long (path real_path : cstring) (flags : Z) (s : state world) :
  PATH_MAX < strlen (if is_flag_set flags (MUST_READ_ONLY h)
                     then ro_path context path else rw_path context path) ->
  exists buf,
    find_file h K context path real_path flags s = Done (- ENAMETOOLONG, buf) s.
Proof.
  intros Hlong. unfold find_file.
  destruct (is_flag_set flags (MUST_READ_ONLY h)); cbn [negb].
  - unfold find_file_ro, make_ro_path, snprintf.
    fold (ro_path context path).
    assert (E : (PATH_MAX <? strlen (ro_path context path)) = true)
      by (apply Z.ltb_lt; exact Hlong).
    destruct (is_flag_set flags (CREATE_COPYUP h)); rewrite E; eexists; reflexivity.
  - unfold make_rw_path, snprintf. fold (rw_path context path).
    assert (E : (PATH_MAX <? strlen (rw_path context path)) = true)
      by (apply Z.ltb_lt; exact Hlong).
    rewrite E. eexists. reflexivity.
Qed.

(** The read-only form is measured when the lookup falls back to the
    read-only branch: when it is too long, the stat of the writable form
    has already been made. *)
Lemma find_file_too_long_fallback (path real_path : cstring) (flags : Z)
    (s : state world) :
  is_flag_set flags (MUST_READ_ONLY h) = false ->
  is_flag_set flags (MUST_READ_WRITE h) = false ->
  strlen (rw_path context path) < PATH_MAX ->
  vfs_lstat K (fs s) (rw_path context path) < 0 ->
  PATH_MAX < strlen (ro_path context path) ->
  exists buf,
    find_file h K context path real_path flags s
    = Done (- ENAMETOOLONG, buf) (record_calls s [EvLstat (rw_path context path)]).
Proof.
  intros Hro Hrw Hfit Hstat Hlong. unfold find_file. rewrite Hro. cbn [negb].
  rewrite (make_rw_path_fits _ Hfit), (not_too_long _ Hfit).
  unfold bind, call_vfs_lstat.
  destruct (Z.ltb_spec (vfs_lstat K (fs s) (rw_path context path)) 0); [|lia].
  rewrite Hrw. unfold find_file_ro, make_ro_path, snprintf.
  fold (ro_path context path).
  assert (E : (PATH_MAX <? strlen (ro_path context path)) = true)
    by (apply Z.ltb_lt; exact Hlong).
  destruct (is_flag_set flags (CREATE_COPYUP h)); rewrite E; eexists; reflexivity.
Qed.

(** C2, what the code does.  With [CREATE_COPYUP] and without
    [IGNORE_WHITEOUT], for a path absent from the writable branch and
    present in the read-only branch, a whiteout hit does not stop
    [find_file]: once [can_traverse] has succeeded, [create_copyup] is
    called and its answer decides the result. *)
Theorem find_file_copies_up_hidden (path real_path : cstring) (flags : Z)
    (s s1 : state world) :
  is_flag_set flags (CREATE_COPYUP h) = true ->
  is_flag_set flags (IGNORE_WHITEOUT h) = false ->
  is_flag_set flags (MUST_READ_ONLY h) = false ->
  is_flag_set flags (MUST_READ_WRITE h) = false ->
  strlen (rw_path context path) < PATH_MAX ->
  strlen (ro_path context path) < PATH_MAX ->
  absent K (fs s) (rw_path context path) ->
  present K (fs s) (ro_path context path) ->
  whiteout_hit K (fs s) path ->
  can_traverse K context path
    (record_calls s [EvLstat (rw_path context path);
                     EvLstat (ro_path context path); EvFindWhiteout path])
    = Done 0 s1 ->
  find_file h K context path real_path flags s
  = let '(err, buf, w) := create_copyup K (fs s1) path (ro_path context path) in
    Done (if err =? 0 then READ_WRITE_COPYUP h else err, buf)
         {| fs := w;
            trace := trace s1 ++ [EvCreateCopyup path (ro_path context path)] |}.
Proof.
  intros Hcopy Hign Hro Hrw Hfitw Hfitr Habs Hpres Hwh Htrav.
  unfold absent in Habs. unfold present in Hpres. unfold whiteout_hit in Hwh.
  unfold find_file. rewrite Hro. cbn [negb].
  rewrite (make_rw_path_fits _ Hfitw), (not_too_long _ Hfitw).
  unfold bind at 1. unfold call_vfs_lstat. rewrite Habs.
  change (- ENOENT <? 0) with true. cbv iota. rewrite Hrw.
  unfold find_file_ro. rewrite Hcopy, Hign.
  rewrite (make_ro_path_fits _ Hfitr), (not_too_long _ Hfitr).
  unfold bind at 1. unfold call_vfs_lstat. cbn [fs trace].
  destruct (Z.ltb_spec (vfs_lstat K (fs s) (ro_path context path)) 0); [lia|].
  cbn [negb]. unfold bind at 1. unfold call_find_whiteout. cbn [fs trace].
  rewrite Hwh. change (0 <? 0) with false. cbv iota.
  unfold copyup_tail, bind.
  unfold record_calls in Htrav. cbn [app] in Htrav.
  rewrite <- !app_assoc. cbn [app]. rewrite Htrav.
  change (0 <? 0) with false. cbv iota.
  unfold call_create_copyup.
  destruct (create_copyup K (fs s1) path (ro_path context path)) as [[err buf] w].
  destruct (err =? 0); reflexivity.
Qed.

End Resolver.

(** ** The recursive mutex *)

Module RecursiveMutexFacts.
Import RecursiveMutex.

Lemma wrap32_idem (a b : Z) : wrap32 (wrap32 a + b) = wrap32 (a + b).
Proof.
  unfold wrap32.
  replace ((a + 2 ^ 31) mod 2 ^ 32 - 2 ^ 31 + b + 2 ^ 31)
    with ((a + 2 ^ 31) mod 2 ^ 32 + b) by lia.
  rewrite Z.add_mod_idemp_l by (change (2 ^ 32) with 4294967296; lia).
  replace (a + b + 2 ^ 31) with (a + 2 ^ 31 + b) by lia. reflexivity.
Qed.

(** Within one turn of the counter only 1 wraps to 1 and only 0 and
    [2 ^ 32] wrap to 0. *)
Lemma wrap32_not_1 (a : Z) : 2 <= a <= 2 ^ 32 -> (wrap32 a =? 1) = false.
Proof.
  unfold wrap32. change (2 ^ 31) with 2147483648. change (2 ^ 32) with 4294967296.
  intros H. apply Z.eqb_neq.
  pose proof (Z.mod_pos_bound (a + 2147483648) 4294967296 ltac:(lia)) as Hb.
  pose proof (Z.div_mod (a + 2147483648) 4294967296 ltac:(lia)) as Hd.
  lia.
Qed.

Lemma wrap32_not_0 (a : Z) : 1 <= a < 2 ^ 32 -> (wrap32 a =? 0) = false.
Proof.
  unfold wrap32. change (2 ^ 31) with 2147483648. change (2 ^ 32) with 4294967296.
  intros H. apply Z.eqb_neq.
  pose proof (Z.mod_pos_bound (a + 2147483648) 4294967296 ltac:(lia)) as Hb.
  pose proof (Z.div_mod (a + 2147483648) 4294967296 ltac:(lia)) as Hd.
  lia.
Qed.

(** The first acquisition takes the spin lock. *)
Lemma lock_free (ti : tid) :
  recursive_mutex_lock ti recursive_mutex_init = Returns (held ti 1).
Proof. reflexivity. Qed.

(** A re-entry below the turn of the counter only counts. *)
Lemma lock_held (ti : tid) (c : Z) :
  1 <= c < 2 ^ 32 ->
  recursive_mutex_lock ti (held ti c) = Returns (held ti (c + 1)).
Proof.
  intros Hc. unfold recursive_mutex_lock, atomic_add_return, held.
  cbn [count lock owner]. rewrite wrap32_idem.
  rewrite wrap32_not_1 by lia.
  unfold owner_is. cbn [owner]. rewrite Nat.eqb_refl. reflexivity.
Qed.

Lemma unlock_held (ti : tid) (c : Z) :
  2 <= c <= 2 ^ 32 ->
  recursive_mutex_unlock (held ti c) = Returns (held ti (c - 1)).
Proof.
  intros Hc. unfold recursive_mutex_unlock, atomic_sub_return, held.
  cbn [count lock owner].
  replace (wrap32 c - 1) with (wrap32 c + - 1) by lia.
  rewrite wrap32_idem. replace (c + - 1) with (c - 1) by lia.
  rewrite wrap32_not_0 by lia. reflexivity.
Qed.

Lemma unlock_last (ti : tid) :
  recursive_mutex_unlock (held ti 1) = Returns released.
Proof. reflexivity. Qed.

Lemma repeat_call_add (f : recursive_mutex_t -> outcome) (a b : nat)
    (m : recursive_mutex_t) :
  repeat_call f (a + b) m
  = match repeat_call f a m with
    | Returns m' => repeat_call f b m'
    | Blocks m' => Blocks m'
    end.
Proof.
  revert m. induction a as [|a IH]; intros m; simpl.
  - reflexivity.
  - destruct (f m); [apply IH | reflexivity].
Qed.

Lemma reenter (ti : tid) (k : nat) (c : Z) :
  1 <= c -> c + Z.of_nat k <= 2 ^ 32 ->
  repeat_call (recursive_mutex_lock ti) k (held ti c)
  = Returns (held ti (c + Z.of_nat k)).
Proof.
  revert c. induction k as [|k IH]; intros c Hc Hk.
  - simpl. rewrite Z.add_0_r. reflexivity.
  - cbn [repeat_call]. rewrite lock_held by lia.
    rewrite IH by lia. do 2 f_equal. lia.
Qed.

Lemma unwind (ti : tid) (k : nat) (c : Z) :
  1 <= c - Z.of_nat k -> c <= 2 ^ 32 ->
  repeat_call recursive_mutex_unlock k (held ti c)
  = Returns (held ti (c - Z.of_nat k)).
Proof.
  revert c. induction k as [|k IH]; intros c Hc Hk.
  - simpl. rewrite Z.sub_0_r. reflexivity.
  - cbn [repeat_call]. rewrite unlock_held by lia.
    rewrite IH by lia. do 2 f_equal. lia.
Qed.

Lemma acquire_n (ti : tid) (n : nat) :
  (1 <= n)%nat -> Z.of_nat n <= 2 ^ 32 ->
  repeat_call (recursive_mutex_lock ti) n recursive_mutex_init
  = Returns (held ti (Z.of_nat n)).
Proof.
  intros H1 Hn. destruct n as [|k]; [lia|].
  cbn [repeat_call]. rewrite lock_free, reenter by lia.
  do 2 f_equal. lia.
Qed.

Lemma release_n (ti : tid) (n : nat) :
  (1 <= n)%nat -> Z.of_nat n <= 2 ^ 32 ->
  repeat_call recursive_mutex_unlock n (held ti (Z.of_nat n)) = Returns released.
Proof.
  intros H1 Hn.
  replace n with ((n - 1) + 1)%nat at 1 by lia.
  rewrite repeat_call_add, unwind by lia.
  replace (Z.of_nat n - Z.of_nat (n - 1)) with 1 by lia.
  reflexivity.
Qed.

(** The two functions are their steps run in a row. *)
Lemma solo_lock (ti : tid) (m : recursive_mutex_t) :
  solo 4 ti LockEntry m = recursive_mutex_lock ti m.
Proof.
  unfold recursive_mutex_lock. cbn [solo step].
  destruct (atomic_add_return 1 m) as [c m1].
  cbn [solo step].
  destruct (c =? 1).
  - cbn [solo step]. destruct (spin_lock ti m1); reflexivity.
  - destruct (negb (owner_is ti m1)).
    + cbn [solo step]. destruct (spin_lock ti m1); reflexivity.
    + reflexivity.
Qed.

Lemma solo_unlock (ti : tid) (m : recursive_mutex_t) :
  solo 4 ti UnlockEntry m = recursive_mutex_unlock m.
Proof.
  unfold recursive_mutex_unlock. cbn [solo step].
  destruct (atomic_sub_return 1 m) as [c m1].
  destruct (c =? 0); reflexivity.
Qed.

(** C9, as the code has it.  For [1 <= n <= 2 ^ 32], one thread that
    calls [recursive_mutex_lock] [n] times on a fresh mutex is never
    blocked: it then holds the spin lock and is the owner, and the spin
    lock has been taken once, by the first call.  [n] calls of
    [recursive_mutex_unlock] after that leave the counter at 0, the
    owner cleared and the spin lock free. *)
Theorem nested_calls_return (ti : tid) (n : nat) :
  (1 <= n)%nat -> Z.of_nat n <= 2 ^ 32 ->
  repeat_call (recursive_mutex_lock ti) n recursive_mutex_init
    = Returns {| count := wrap32 (Z.of_nat n);
                 lock := {| holder := Some ti; acquisitions := 1 |};
                 owner := Some ti |}
  /\ nested ti n recursive_mutex_init
    = Returns {| count := 0;
                 lock := {| holder := None; acquisitions := 1 |};
                 owner := None |}.
Proof.
  intros H1 Hn. split.
  - apply acquire_n; assumption.
  - unfold nested. rewrite acquire_n by assumption.
    apply release_n; assumption.
Qed.

End RecursiveMutexFacts.

Module RecursiveMutexRuns.
Import RecursiveMutex RecursiveMutexFacts.

Lemma one_turn_blocks (ti : tid) (n : nat) :
  Z.of_nat n = 2 ^ 32 + 1 ->
  nested ti n recursive_mutex_init = Blocks (held ti 1).
Proof.
  intros Hn. unfold nested.
  replace n with ((n - 1) + 1)%nat by lia.
  rewrite repeat_call_add, acquire_n by lia.
  replace (Z.of_nat (n - 1)) with (2 ^ 32) by lia.
  reflexivity.
Qed.

(** C9 as it is stated fails for a nesting of [2 ^ 32 + 1]: the counter
    has wrapped to 0 and the last acquisition, taking it to 1 again,
    spins on the lock its own thread holds. *)
Lemma nested_past_the_counter :
  nested 1%nat (Z.to_nat (2 ^ 32 + 1)) recursive_mutex_init = Blocks (held 1%nat 1).
Proof.
  apply one_turn_blocks. apply Z2Nat.id. discriminate.
Qed.

Lemma nested_calls_return_thrice :
  ((1 <= 3)%nat /\ Z.of_nat 3 <= 2 ^ 32)
  /\ repeat_call (recursive_mutex_lock 7%nat) 3 recursive_mutex_init
      = Returns {| count := 3;
                   lock := {| holder := Some 7%nat; acquisitions := 1 |};
                   owner := Some 7%nat |}
  /\ nested 7%nat 3 recursive_mutex_init
      = Returns {| count := 0;
                   lock := {| holder := None; acquisitions := 1 |};
                   owner := None |}.
Proof.
  split; [split; [repeat constructor | discriminate] |].
  apply (nested_calls_return 7%nat 3%nat); [repeat constructor | discriminate].
Defined.

(** C10, on the code.  Thread 1 holds the mutex and is in the middle of
    releasing it when threads 2 and 3 call [recursive_mutex_lock]; both
    spin.  When thread 1 has unlocked, thread 3 (which came in by the
    branch for a counter above 1) gets the spin lock and returns: it
    holds the lock and [owner] is still NULL.  When thread 3 then calls
    [recursive_mutex_lock] again it spins on the lock it holds. *)
Theorem contended_winner_is_not_owner :
  observe (run until_both_spin (boot contenders))
    = Some ({| count := 2;
               lock := {| holder := Some 1%nat; acquisitions := 1 |};
               owner := Some 1%nat |},
            UnlockClearOwner, LockSpin true, LockSpin false)
  /\ observe (run (until_both_spin ++ [3%nat]) (boot contenders)) = None
  /\ observe (run until_3_wins (boot contenders))
    = Some ({| count := 2;
               lock := {| holder := Some 3%nat; acquisitions := 2 |};
               owner := None |},
            Outside, LockSpin true, Outside)
  /\ observe (run until_3_reenters (boot contenders))
    = Some ({| count := 3;
               lock := {| holder := Some 3%nat; acquisitions := 2 |};
               owner := None |},
            Outside, LockSpin true, LockSpin false)
  /\ observe (run (until_3_reenters ++ [3%nat]) (boot contenders)) = None.
Proof. repeat split; vm_compute; reflexivity. Qed.

End RecursiveMutexRuns.

(** ** The path translator *)

Section Translator.

Variable sb_info : hepunion_sb_info.

Lemma cstring_eqb_refl (a : cstring) : cstring_eqb a a = true.
Proof.
  induction a as [|x a IH]; simpl; [reflexivity|].
  rewrite Ascii.eqb_refl. exact IH.
Qed.

(** When neither root matches, the answer is [-ENODATA] and the
    caller's buffer is left alone; the read-only root is compared
    first. *)
Lemma strip_branch_no_branch (real_path buf : buffer) (len : Z) :
  cstring_eqb (read_only_branch sb_info) (firstn (ro_len sb_info) real_path) = false ->
  cstring_eqb (read_write_branch sb_info) (firstn (rw_len sb_info) real_path) = false ->
  strip_branch sb_info real_path len buf = Done (- ENODATA) buf.
Proof.
  intros Hro Hrw. unfold strip_branch. rewrite Hro, Hrw. reflexivity.
Qed.

(** Given the bytes of a path [/ro-root/P] and its length, which is what
    [get_full_path] is to deliver, the read-only test of
    [get_relative_path] skips the root and one character more: what it
    hands back is [P] without its first character, and without a
    terminator. *)
Lemma strip_branch_drops_first_char (c : ascii) (p rest buf : buffer) :
  strip_branch sb_info (read_only_branch sb_info ++ (c :: p) ++ rest)
    (strlen (read_only_branch sb_info ++ c :: p)) buf
  = Done 0 (p ++ skipn (List.length p) buf).
Proof.
  unfold strip_branch, ro_len.
  rewrite firstn_app, Nat.sub_diag, firstn_all. cbn [firstn].
  rewrite app_nil_r, cstring_eqb_refl.
  rewrite strlen_app. unfold strlen. cbn [List.length].
  replace (Z.of_nat (List.length (read_only_branch sb_info))
           + Z.of_nat (S (List.length p)) - 1
           - Z.of_nat (List.length (read_only_branch sb_info)))
    with (Z.of_nat (List.length p)) by lia.
  destruct (Z.ltb_spec (Z.of_nat (List.length p)) 0); [lia|].
  unfold bind, memcpy, ret. rewrite Nat2Z.id.
  rewrite <- skipn_skipn.
  rewrite skipn_app, Nat.sub_diag, skipn_all. cbn [skipn app].
  rewrite firstn_app, Nat.sub_diag, firstn_all. cbn [firstn].
  rewrite app_nil_r. reflexivity.
Qed.

End Translator.

(** Where the last copy of [get_full_path] stays inside its buffer, for
    the deep entry under [/r], the text starts with two slashes and is
    cut short: neither root is a prefix of it. *)
Lemma get_relative_path_deep_entry (stack buf : buffer) :
  get_relative_path linux_h Toy.short_roots Toy.unlinked (Some Toy.deep) stack buf
  = Done (- ENODATA) buf.
Proof. vm_compute. reflexivity. Qed.

(** C7, on the code.  [get_relative_path] does not give back the union
    path of a resolved entry.  For [/ro/a], the entry of the union path
    [/a] in the read-only branch, it stops in the [assert] when the
    inode has a link; when it has none, [get_full_path] copies [buflen]
    bytes, the room left in its buffer and not the length of the text,
    and with a buffer of 16 bytes or more that copy reads past the end
    of the buffer. *)
Theorem get_relative_path_loses_the_path (h : hepunion_h) :
  16 <= MAX_PATH h ->
  (forall stack buf,
     get_relative_path h Toy.mount Toy.linked (Some Toy.ro_a) stack buf
     = Fault AssertionFailed)
  /\ (forall stack buf,
       get_relative_path h Toy.mount Toy.unlinked (Some Toy.ro_a) stack buf
       = Fault UndefinedBehaviour).
Proof.
  intros Hmax. split; intros stack buf.
  - reflexivity.
  - unfold get_relative_path, get_full_path.
    change (negb (i_nlink Toy.unlinked =? 0)) with false. cbv iota.
    unfold Toy.ro_a, entry_of. cbn [fold_left full_path_loop].
    change (strlen (cstr "a")) with 1. change (strlen (cstr "ro")) with 2.
    repeat match goal with
           | |- context [?a <? ?b] => destruct (Z.ltb_spec a b); try lia
           end.
    + reflexivity.
    + match goal with
      | H : _ <= strlen ?t |- _ => change (strlen t) with 8 in H
      end.
      lia.
Qed.

(** ** Runs on the small file system *)

Module Runs.
Import Toy.

(** Closed goals are settled by evaluation. *)
Ltac run := vm_compute; solve [reflexivity | discriminate | intro; discriminate].

(** User 1000 asks to read and search [/ro/a], a directory of its own
    with mode 755. *)
Lemma can_access_decides_dir_755 :
  (get_file_attr_worker user (fs (boot both_branches)) (cstr "/a") (cstr "/ro/a")
     = (0, dir_755)
   /\ 0 <= 5 < 8)
  /\ can_access user (cstr "/a") (cstr "/ro/a") 5 (boot both_branches)
     = Done 0 (record_calls (boot both_branches) [EvGetAttr (cstr "/a") (cstr "/ro/a")]).
Proof.
  split; [split; [reflexivity | split; run] |].
  apply (can_access_decides toy_fs user (cstr "/a") (cstr "/ro/a") 5
           (boot both_branches) dir_755);
    [reflexivity | split; run].
Defined.

(** [/a/b/f]: the directories [/a] and [/a/b] are looked at, in the
    read-only branch. *)
Lemma can_traverse_checks_ancestors_a_b_f :
  (hd_error (cstr "/a/b/f") = Some slash
   /\ strlen (read_only_branch mount) + strlen (cstr "/a/b/f") <= PATH_MAX)
  /\ can_traverse user mount (cstr "/a/b/f") (boot both_branches)
     = Done 0 (record_calls (boot both_branches)
                 [EvGetAttr (cstr "/a") (cstr "/ro/a");
                  EvGetAttr (cstr "/a/b") (cstr "/ro/a/b")]).
Proof.
  split; [split; run |].
  apply (can_traverse_checks_ancestors toy_fs user mount (cstr "/a/b/f")
           (boot both_branches));
    run.
Defined.

(** [/a/b/f] is in both branches: the writable one is returned. *)
Lemma find_file_writable_wins_a_b_f :
  (is_flag_set 0 (MUST_READ_ONLY linux_h) = false
   /\ strlen (rw_path mount (cstr "/a/b/f")) < PATH_MAX
   /\ present user (fs (boot both_branches)) (rw_path mount (cstr "/a/b/f"))
   /\ can_traverse user mount (cstr "/a/b/f")
        (record_calls (boot both_branches) [EvLstat (rw_path mount (cstr "/a/b/f"))])
      = Done 0 (record_calls (boot both_branches)
                  [EvLstat (cstr "/rw/a/b/f");
                   EvGetAttr (cstr "/a") (cstr "/ro/a");
                   EvGetAttr (cstr "/a/b") (cstr "/ro/a/b")]))
  /\ find_file linux_h user mount (cstr "/a/b/f") [] 0 (boot both_branches)
     = Done (READ_WRITE linux_h, cstr "/rw/a/b/f")
            (record_calls (boot both_branches)
               [EvLstat (cstr "/rw/a/b/f");
                EvGetAttr (cstr "/a") (cstr "/ro/a");
                EvGetAttr (cstr "/a/b") (cstr "/ro/a/b")]).
Proof.
  split; [repeat split; run |].
  apply (find_file_writable_wins toy_fs linux_h user mount (cstr "/a/b/f") [] 0
           (boot both_branches));
    run.
Defined.

(** [/a/f] is in the read-only branch only and carries a whiteout: a
    plain lookup does not see it. *)
Lemma find_file_whiteout_hides_a_f :
  (is_flag_set 0 (IGNORE_WHITEOUT linux_h) = false
   /\ is_flag_set 0 (CREATE_COPYUP linux_h) = false
   /\ strlen (rw_path mount (cstr "/a/f")) < PATH_MAX
   /\ strlen (ro_path mount (cstr "/a/f")) < PATH_MAX
   /\ absent user (fs (boot deleted)) (rw_path mount (cstr "/a/f"))
   /\ present user (fs (boot deleted)) (ro_path mount (cstr "/a/f"))
   /\ whiteout_hit user (fs (boot deleted)) (cstr "/a/f"))
  /\ exists buf,
       find_file linux_h user mount (cstr "/a/f") [] 0 (boot deleted)
       = Done (- ENOENT, buf)
              (record_calls (boot deleted)
                 (hidden_calls linux_h mount (cstr "/a/f") 0)).
Proof.
  split; [repeat split; run |].
  apply (find_file_whiteout_hides toy_fs linux_h user mount (cstr "/a/f") [] 0
           (boot deleted));
    run.
Defined.

(** The same path looked up with [CREATE_COPYUP]: it is copied up. *)
Lemma find_file_copies_up_hidden_a_f :
  (is_flag_set 4 (CREATE_COPYUP linux_h) = true
   /\ is_flag_set 4 (IGNORE_WHITEOUT linux_h) = false
   /\ is_flag_set 4 (MUST_READ_ONLY linux_h) = false
   /\ is_flag_set 4 (MUST_READ_WRITE linux_h) = false
   /\ absent user (fs (boot deleted)) (rw_path mount (cstr "/a/f"))
   /\ present user (fs (boot deleted)) (ro_path mount (cstr "/a/f"))
   /\ whiteout_hit user (fs (boot deleted)) (cstr "/a/f"))
  /\ find_file linux_h user mount (cstr "/a/f") [] 4 (boot deleted)
     = Done (READ_WRITE_COPYUP linux_h, cstr "/rw/a/f")
         {| fs := {| files := (cstr "/rw/a/f", file_644) :: files deleted;
                     whiteouts := whiteouts deleted |};
            trace := [EvLstat (cstr "/rw/a/f"); EvLstat (cstr "/ro/a/f");
                      EvFindWhiteout (cstr "/a/f");
                      EvGetAttr (cstr "/a") (cstr "/ro/a");
                      EvCreateCopyup (cstr "/a/f") (cstr "/ro/a/f")] |}.
Proof.
  split; [repeat split; run |].
  apply (find_file_copies_up_hidden toy_fs linux_h user mount (cstr "/a/f") [] 4
           (boot deleted)
           (record_calls (boot deleted)
              [EvLstat (cstr "/rw/a/f"); EvLstat (cstr "/ro/a/f");
               EvFindWhiteout (cstr "/a/f");
               EvGetAttr (cstr "/a") (cstr "/ro/a")]));
    run.
Defined.

(** The entry [/ro/a] with the buffers of a Linux build. *)
Lemma get_relative_path_loses_the_path_linux :
  16 <= MAX_PATH linux_h
  /\ (forall stack buf,
       get_relative_path linux_h mount linked (Some ro_a) stack buf
       = Fault AssertionFailed)
  /\ (forall stack buf,
       get_relative_path linux_h mount unlinked (Some ro_a) stack buf
       = Fault UndefinedBehaviour).
Proof.
  split; [run |].
  apply (get_relative_path_loses_the_path linux_h). run.
Defined.

(** Under [MUST_READ_ONLY] the read-only form is the first one made. *)
Lemma find_file_too_long_read_only :
  PATH_MAX < strlen (if is_flag_set 2 (MUST_READ_ONLY linux_h)
                     then ro_path lopsided long_name else rw_path lopsided long_name)
  /\ exists buf,
       find_file linux_h (toy_kernel lopsided 1000 1000) lopsided long_name [] 2
         (boot long_file)
       = Done (- ENAMETOOLONG, buf) (boot long_file).
Proof.
  split; [run |].
  apply (find_file_too_long toy_fs linux_h (toy_kernel lopsided 1000 1000) lopsided
           long_name [] 2 (boot long_file)).
  run.
Defined.

(** C8 as it is stated fails for a path whose read-only form alone is
    too long: a plain lookup stats the writable form, finds the file and
    returns [READ_WRITE]; and when the file is not there, the stat of
    the writable form has been made before [-ENAMETOOLONG] is
    returned. *)
Lemma find_file_long_read_only_form :
  PATH_MAX < strlen (ro_path lopsided long_name)
  /\ find_file linux_h (toy_kernel lopsided 1000 1000) lopsided long_name [] 0
       (boot long_file)
     = Done (READ_WRITE linux_h, rw_path lopsided long_name)
            (record_calls (boot long_file) [EvLstat (rw_path lopsided long_name)])
  /\ find_file linux_h (toy_kernel lopsided 1000 1000) lopsided long_name [] 0
       (boot nothing)
     = Done (- ENAMETOOLONG, firstn 4095 (ro_path lopsided long_name))
            (record_calls (boot nothing) [EvLstat (rw_path lopsided long_name)]).
Proof.
  split; [run | split; run].
Qed.

End Runs.

(** * Further properties *)

(** ** The permission guard *)

Section AccessFacts.

Variable world : Type.
Variable K : kernel world.

(** The decision on attributes that were obtained. *)
Lemma access_decision_granted (euid egid mode : Z) (stbuf : kstat) :
  0 <= mode < 8 ->
  access_decision euid egid mode 0 stbuf
  = if granted euid egid mode stbuf then 0 else - EACCESS.
Proof.
  intros Hmode. unfold access_decision, granted, root_shortcut.
  change (nonzero 0) with false. cbv iota.
  assert (E1 : nonzero (Z.land mode X_OK) = Z.testbit mode 0).
  { rewrite Z.land_comm. exact (nonzero_land_bit mode 0 (Z.le_refl 0)). }
  rewrite E1.
  assert (Hs6 : 0 <= RIGHTS_MASK * 2) by (unfold RIGHTS_MASK; lia).
  assert (Hs3 : 0 <= RIGHTS_MASK) by (unfold RIGHTS_MASK; lia).
  destruct (euid =? 0).
  - destruct (Z.testbit mode 0) eqn:Hx; [|reflexivity].
    change X_OK with (Z.shiftl 1 0) at 1.
    change (Z.shiftl X_OK RIGHTS_MASK) with (Z.shiftl 1 3).
    change (Z.shiftl X_OK (RIGHTS_MASK * 2)) with (Z.shiftl 1 6).
    rewrite !nonzero_land_bit by lia. fold (has_exec (st_mode stbuf)).
    destruct (has_exec (st_mode stbuf)) eqn:Hexec; [reflexivity|].
    unfold has_exec in Hexec.
    apply orb_false_iff in Hexec. destruct Hexec as [Hexec H6].
    apply orb_false_iff in Hexec. destruct Hexec as [H0 H3].
    unfold shift_mode.
    destruct (euid =? st_uid stbuf).
    + rewrite exec_request_refused by assumption. reflexivity.
    + destruct (egid =? st_gid stbuf).
      * rewrite exec_request_refused by assumption. reflexivity.
      * pose proof (exec_request_refused mode 0 (st_mode stbuf) (Z.le_refl 0) Hx H0) as E.
        change (Z.shiftl mode 0) with mode in E. rewrite E. reflexivity.
  - unfold shift_mode, selected_triplet, all_bits_in.
    destruct (euid =? st_uid stbuf).
    + rewrite shifted_request by assumption. reflexivity.
    + destruct (egid =? st_gid stbuf).
      * rewrite shifted_request by assumption. reflexivity.
      * pose proof (shifted_request mode 0 (st_mode stbuf) Hmode (Z.le_refl 0)) as E.
        change (Z.shiftl mode 0) with mode in E.
        change (Z.shiftr (st_mode stbuf) 0) with (st_mode stbuf) in E.
        rewrite E. reflexivity.
Qed.

(** A request contained in a granted one is granted. *)
Lemma granted_downward (euid egid m m' : Z) (stbuf : kstat) :
  Z.land m' m = m' ->
  granted euid egid m stbuf = true -> granted euid egid m' stbuf = true.
Proof.
  intros Hsub. unfold granted, all_bits_in.
  destruct (euid =? 0).
  - destruct (Z.testbit m' 0) eqn:Hx; [|reflexivity].
    assert (Hm : Z.testbit m 0 = true).
    { assert (E : Z.testbit (Z.land m' m) 0 = Z.testbit m' 0) by (rewrite Hsub; reflexivity).
      rewrite Z.land_spec, Hx in E. exact E. }
    rewrite Hm. trivial.
  - rewrite !Z.eqb_eq. intros H.
    rewrite <- Hsub at 1. rewrite <- Z.land_assoc, H. exact Hsub.
Qed.

(** X1.  Granting is closed downwards: when the attributes are obtained
    and [can_access] answers 0 to a request, it answers 0 to every
    request made of some of the same bits, whoever the caller is. *)
Theorem can_access_downward_closed (path real_path : cstring) (m m' : Z)
    (s s1 : state world) (stbuf : kstat) :
  get_file_attr_worker K (fs s) path real_path = (0, stbuf) ->
  0 <= m < 8 -> 0 <= m' < 8 -> Z.land m' m = m' ->
  can_access K path real_path m s = Done 0 s1 ->
  can_access K path real_path m' s = Done 0 s1.
Proof.
  intros Hattr Hm Hm' Hsub.
  unfold can_access, bind, call_get_file_attr_worker. rewrite Hattr.
  rewrite !access_decision_granted by assumption.
  destruct (granted (sys_geteuid K) (sys_getegid K) m stbuf) eqn:Hg.
  - rewrite (granted_downward _ _ m m' stbuf Hsub Hg). trivial.
  - unfold ret. intros H. injection H as H _. discriminate.
Qed.

(** X2.  With an empty request [can_access] is a test for existence: it
    answers what [get_file_attr_worker] answers, 0 for an entry that is
    there, whatever its mode and whoever the caller is. *)
Theorem can_access_empty_request (path real_path : cstring) (s : state world) :
  can_access K path real_path 0 s
  = Done (fst (get_file_attr_worker K (fs s) path real_path))
         (record_calls s [EvGetAttr path real_path]).
Proof.
  unfold can_access, bind, call_get_file_attr_worker.
  destruct (get_file_attr_worker K (fs s) path real_path) as [err stbuf].
  cbn [fst]. unfold ret, record_calls. f_equal.
  unfold access_decision. destruct (nonzero err) eqn:E; [reflexivity|].
  apply negb_false_iff, Z.eqb_eq in E. subst err.
  unfold root_shortcut, shift_mode. cbn [Z.land nonzero Z.eqb negb].
  rewrite !Z.shiftl_0_l.
  destruct (sys_geteuid K =? 0); [reflexivity|].
  destruct (sys_geteuid K =? st_uid stbuf); [reflexivity|].
  destruct (sys_getegid K =? st_gid stbuf); reflexivity.
Qed.

End AccessFacts.

(** ** Removal *)

Section RemovalFacts.

Variable world : Type.
Variable K : kernel world.

Lemma find_last_trailing (d : cstring) (i : nat) :
  find_last slash (d ++ [slash]) i = Some (i + List.length d)%nat.
Proof.
  revert i. induction d as [|x d IH]; intros i; cbn [app find_last List.length].
  - rewrite Nat.add_0_r. reflexivity.
  - rewrite IH, Nat.add_succ_r. reflexivity.
Qed.

(** X3.  With a trailing slash the directory itself is taken for the
    parent: removing [d/] asks for write access to [d], not to the
    directory that holds [d]. *)
Theorem can_remove_trailing_slash (path d : cstring) (s : state world) :
  d <> [] -> strlen d < PATH_MAX ->
  can_remove K path (d ++ [slash]) s = can_access K path d W_OK s.
Proof.
  intros Hd Hfit. unfold can_remove, strrchr.
  rewrite find_last_trailing. cbn [Nat.add].
  assert (Hn : List.length d <> 0%nat) by (destruct d; [contradiction | discriminate]).
  destruct (Nat.eqb_spec (List.length d) 0); [contradiction|].
  unfold strlen in Hfit.
  destruct (Z.leb_spec PATH_MAX (Z.of_nat (List.length d))); [lia|].
  unfold slice. rewrite Nat.sub_0_r. cbn [skipn].
  rewrite firstn_app, Nat.sub_diag, firstn_all. cbn [firstn].
  rewrite app_nil_r. reflexivity.
Qed.

End RemovalFacts.

(** ** The traversal check *)

Section TraversalFacts.

Variable world : Type.
Variable K : kernel world.
Variable context : hepunion_sb_info.

Lemma adds_refl (P : event -> Prop) (s : state world) : adds P s s.
Proof. exists []. split; [symmetry; apply app_nil_r | constructor]. Qed.

Lemma adds_trans (P : event -> Prop) (s1 s2 s3 : state world) :
  adds P s1 s2 -> adds P s2 s3 -> adds P s1 s3.
Proof.
  intros [e1 [H1 F1]] [e2 [H2 F2]]. exists (e1 ++ e2). split.
  - rewrite H2, H1, app_assoc. reflexivity.
  - apply Forall_app. split; assumption.
Qed.

Lemma adds_one (P : event -> Prop) (s : state world) (e : event) :
  P e -> adds P s (record_calls s [e]).
Proof. intros H. exists [e]. split; [reflexivity | repeat constructor; exact H]. Qed.

Lemma adds_weaken (P Q : event -> Prop) (s s' : state world) :
  (forall e, P e -> Q e) -> adds P s s' -> adds Q s s'.
Proof.
  intros HPQ [evs [H F]]. exists evs. split; [exact H|].
  revert F. apply Forall_impl. exact HPQ.
Qed.

(** What the loop of [can_traverse] can do at all. *)
Lemma traverse_loop_effects (fuel : nat) (path short_path long_path : cstring)
    (old : nat) (dir : option nat) (s s' : state world) (r : Z) :
  traverse_loop K fuel path short_path long_path old dir s = Done r s' ->
  r <= 0 /\ fs s' = fs s /\ adds is_get_attr s s'.
Proof.
  revert short_path long_path old dir s.
  induction fuel as [|fuel IH]; intros short_path long_path old dir s;
    destruct dir as [d|]; cbn [traverse_loop].
  - discriminate.
  - intros H. injection H as <- <-. repeat split; [lia | apply adds_refl].
  - unfold bind at 1. unfold strncat at 1.
    destruct (_ <=? PATH_MAX); [|discriminate].
    unfold ret at 1. unfold bind at 1. unfold strncat at 1.
    destruct (_ <=? PATH_MAX); [|discriminate].
    unfold ret at 1. unfold bind. rewrite can_access_run.
    destruct (Z.ltb_spec (access_value K (fs s) (short_path ++ slice path old d)
                            (long_path ++ slice path old d) X_OK) 0) as [Hneg|Hpos].
    + intros H. injection H as <- <-.
      repeat split; [lia | apply adds_one; exact I].
    + intros H. apply IH in H. destruct H as [Hr [Hfs Hadd]].
      repeat split; [exact Hr | exact Hfs |].
      eapply adds_trans; [|exact Hadd]. apply adds_one. exact I.
  - intros H. injection H as <- <-. repeat split; [lia | apply adds_refl].
Qed.

Lemma can_traverse_effects (path : cstring) (s s' : state world) (r : Z) :
  can_traverse K context path s = Done r s' ->
  r <= 0 /\ fs s' = fs s /\ adds is_get_attr s s'.
Proof.
  unfold can_traverse.
  destruct (snprintf PATH_MAX (read_only_branch context ++ [slash])) as [n long_path].
  destruct (PATH_MAX <? n).
  - intros H. injection H as <- <-.
    repeat split; [unfold ENAMETOOLONG; lia | apply adds_refl].
  - destruct (strrchr path slash) as [[|j]|].
    + intros H. injection H as <- <-. repeat split; [lia | apply adds_refl].
    + destruct path; [discriminate|]. apply traverse_loop_effects.
    + destruct path; [discriminate|]. apply traverse_loop_effects.
Qed.

(** X4.  Whatever the path, [can_traverse] answers 0 or a negative
    code, never a positive one; it leaves the file system as it is, and
    the only calls it makes are attribute lookups: no stat, no whiteout
    lookup, no copy-up. *)
Theorem can_traverse_only_looks (path : cstring) (s s' : state world) (r : Z) :
  can_traverse K context path s = Done r s' ->
  r <= 0 /\ fs s' = fs s
  /\ exists evs, trace s' = trace s ++ evs /\ Forall is_get_attr evs.
Proof.
  intros Hrun.
  destruct (can_traverse_effects path s s' r Hrun) as [Hr [Hfs Hadd]].
  split; [exact Hr|]. split; [exact Hfs|]. exact Hadd.
Qed.

(** X5.  When the read-only root with a slash behind it does not fit
    [PATH_MAX], no path can be traversed, not even the root:
    [can_traverse] answers [-ENAMETOOLONG] and looks nothing up. *)
Theorem can_traverse_root_too_long (path : cstring) (s : state world) :
  PATH_MAX < strlen (read_only_branch context) + 1 ->
  can_traverse K context path s = Done (- ENAMETOOLONG) s.
Proof.
  intros Hlong. unfold can_traverse, snprintf.
  rewrite strlen_app. change (strlen [slash]) with 1.
  destruct (Z.ltb_spec PATH_MAX (strlen (read_only_branch context) + 1));
    [reflexivity | lia].
Qed.

Lemma bind_ext {S A B : Type} (m : M S A) (k k' : A -> M S B) (s : S) :
  (forall a s1, k a s1 = k' a s1) -> bind m k s = bind m k' s.
Proof. intros H. unfold bind. destruct (m s); [apply H | reflexivity]. Qed.

Lemma traverse_loop_tail (fuel : nat) (c c' : ascii) (rest short_path long_path : cstring)
    (old : nat) (dir : option nat) (s : state world) :
  (1 <= old)%nat -> (forall d, dir = Some d -> (1 <= d)%nat) ->
  traverse_loop K fuel (c :: rest) short_path long_path old dir s
  = traverse_loop K fuel (c' :: rest) short_path long_path old dir s.
Proof.
  revert short_path long_path old dir s.
  induction fuel as [|fuel IH]; intros short_path long_path old dir s Hold Hdir;
    destruct dir as [d|]; cbn [traverse_loop]; try reflexivity.
  pose proof (Hdir d eq_refl) as Hd.
  assert (Hslice : slice (c :: rest) old d = slice (c' :: rest) old d).
  { unfold slice. destruct old as [|o]; [lia | reflexivity]. }
  rewrite Hslice.
  apply bind_ext. intros sp s1. apply bind_ext. intros lp s2.
  apply bind_ext. intros err s3.
  destruct (err <? 0); [reflexivity|].
  change (strchr (c :: rest) (S d) slash) with (strchr (c' :: rest) (S d) slash).
  destruct (strchr (c' :: rest) (S d) slash) as [d'|] eqn:E.
  - apply IH; [exact Hd|]. intros d2 H2. injection H2 as <-.
    unfold strchr in E. apply find_from_some in E. lia.
  - destruct fuel; reflexivity.
Qed.

Lemma find_last_none (s : cstring) (i j : nat) :
  find_last slash s i = None -> find_from slash s j = None.
Proof.
  revert i j. induction s as [|x s IH]; intros i j H; cbn in *.
  - reflexivity.
  - destruct (find_last slash s (S i)) eqn:E; [discriminate|].
    destruct (Ascii.eqb x slash); [discriminate|].
    eapply IH. exact E.
Qed.

(** X6.  The first character of the path is never looked at: whatever
    it is, the walk is that of the path with a slash in its place.  A
    relative path is checked as if it were absolute. *)
Theorem can_traverse_skips_first_char (c : ascii) (rest : cstring) (s : state world) :
  can_traverse K context (c :: rest) s = can_traverse K context (slash :: rest) s.
Proof.
  unfold can_traverse.
  destruct (snprintf PATH_MAX (read_only_branch context ++ [slash])) as [n long_path].
  destruct (PATH_MAX <? n); [reflexivity|].
  unfold strrchr. cbn [find_last].
  destruct (find_last slash rest 1) as [j|] eqn:E.
  - pose proof (find_last_ge _ _ _ E) as Hj.
    destruct j as [|j]; [lia|].
    cbn [List.length]. apply traverse_loop_tail; [lia|].
    intros d Hd. unfold strchr in Hd. apply find_from_some in Hd. lia.
  - change (Ascii.eqb slash slash) with true. cbv iota.
    assert (Hnone : strchr (c :: rest) 1 slash = None).
    { unfold strchr. cbn [skipn]. eapply find_last_none. exact E. }
    destruct (Ascii.eqb c slash); [reflexivity|].
    rewrite Hnone. destruct (List.length (c :: rest)); reflexivity.
Qed.

Lemma slash_offsets_app (a b : cstring) (i : nat) :
  slash_offsets (a ++ b) i = slash_offsets a i ++ slash_offsets b (i + List.length a).
Proof.
  revert i. induction a as [|x a IH]; intros i; cbn [app slash_offsets List.length].
  - rewrite Nat.add_0_r. reflexivity.
  - rewrite IH, Nat.add_succ_r.
    destruct (Ascii.eqb x slash); reflexivity.
Qed.

Lemma slash_offsets_none (name : cstring) (i : nat) :
  ~ In slash name -> slash_offsets name i = [].
Proof.
  revert i. induction name as [|x name IH]; intros i Hno; cbn [slash_offsets].
  - reflexivity.
  - destruct (Ascii.eqb_spec x slash) as [->|_].
    + exfalso. apply Hno. left. reflexivity.
    + apply IH. intros Hin. apply Hno. right. exact Hin.
Qed.

Lemma slash_offsets_bound (a : cstring) (i d : nat) :
  In d (slash_offsets a i) -> (d < i + List.length a)%nat.
Proof.
  revert i. induction a as [|x a IH]; intros i; cbn [slash_offsets List.length].
  - intros [].
  - destruct (Ascii.eqb x slash).
    + intros [<- | Hin]; [lia|]. apply IH in Hin. lia.
    + intros Hin. apply IH in Hin. lia.
Qed.

(** The ancestors of [dir/name] are those of [dir/], whatever the name. *)
Lemma ancestors_final (dir name : cstring) :
  ~ In slash name ->
  ancestors (slash :: dir ++ slash :: name) = ancestors (slash :: dir ++ [slash]).
Proof.
  intros Hno. unfold ancestors. cbn [tl].
  rewrite !slash_offsets_app. cbn [slash_offsets].
  change (Ascii.eqb slash slash) with true. cbv iota.
  rewrite (slash_offsets_none name _ Hno). cbn [slash_offsets].
  apply map_ext_in. intros d Hd.
  assert (Hb : (d <= S (List.length dir))%nat).
  { apply in_app_or in Hd. destruct Hd as [Hd | [<- | []]].
    - apply slash_offsets_bound in Hd. lia.
    - lia. }
  change (slash :: dir ++ slash :: name) with ((slash :: dir) ++ slash :: name).
  change (slash :: dir ++ [slash]) with ((slash :: dir) ++ [slash]).
  rewrite !firstn_app. cbn [List.length].
  replace (d - S (List.length dir))%nat with 0%nat by lia.
  reflexivity.
Qed.

(** X7.  The final component is never looked at: for an absolute path
    that fits the buffers, the walk is the same whatever name stands
    behind the last slash, and none at all. *)
Theorem can_traverse_ignores_final (dir name : cstring) (s : state world) :
  ~ In slash name ->
  strlen (read_only_branch context) + strlen (slash :: dir ++ slash :: name) <= PATH_MAX ->
  can_traverse K context (slash :: dir ++ slash :: name) s
  = can_traverse K context (slash :: dir ++ [slash]) s.
Proof.
  intros Hno Hfit.
  rewrite !can_traverse_walk; try reflexivity; try assumption.
  - rewrite (ancestors_final dir name Hno). reflexivity.
  - unfold strlen in *. cbn [List.length] in *.
    rewrite length_app in *. cbn [List.length] in *. lia.
Qed.

End TraversalFacts.

(** ** The resolver *)

Section ResolverFacts.

Variable world : Type.
Variable h : hepunion_h.
Variable K : kernel world.
Variable context : hepunion_sb_info.

Lemma fs_record_calls (s : state world) (es : list event) :
  fs (record_calls s es) = fs s.
Proof. reflexivity. Qed.

(** How [find_file] comes to its second half. *)
Lemma find_file_falls_back (path real_path : cstring) (flags : Z) (s : state world) :
  (is_flag_set flags (MUST_READ_ONLY h) = false ->
   is_flag_set flags (MUST_READ_WRITE h) = false
   /\ strlen (rw_path context path) < PATH_MAX
   /\ vfs_lstat K (fs s) (rw_path context path) < 0) ->
  exists buf,
    find_file h K context path real_path flags s
    = find_file_ro h K context path buf flags
        (record_calls s (if is_flag_set flags (MUST_READ_ONLY h) then []
                         else [EvLstat (rw_path context path)])).
Proof.
  intros H. unfold find_file.
  destruct (is_flag_set flags (MUST_READ_ONLY h)); cbn [negb].
  - exists real_path. rewrite record_calls_nil. reflexivity.
  - destruct (H eq_refl) as [Hrw [Hfit Hstat]].
    rewrite (make_rw_path_fits _ _ Hfit), (not_too_long _ Hfit).
    unfold bind, call_vfs_lstat.
    destruct (Z.ltb_spec (vfs_lstat K (fs s) (rw_path context path)) 0); [|lia].
    rewrite Hrw. eexists. reflexivity.
Qed.

Lemma lookup_calls_split (path : cstring) (flags : Z) (s : state world) :
  record_calls
    (record_calls s (if is_flag_set flags (MUST_READ_ONLY h) then []
                     else [EvLstat (rw_path context path)]))
    ([EvLstat (ro_path context path)]
     ++ (if is_flag_set flags (IGNORE_WHITEOUT h) then [] else [EvFindWhiteout path]))
  = record_calls s (lookup_calls h context path flags).
Proof. apply record_calls_app. Qed.

(** The stat and the whiteout lookup of the read-only branch. *)
Lemma read_only_branch_reached (path real_path : cstring) (flags : Z) (s1 : state world) :
  is_flag_set flags (CREATE_COPYUP h) = false ->
  strlen (ro_path context path) < PATH_MAX ->
  present K (fs s1) (ro_path context path) ->
  (is_flag_set flags (IGNORE_WHITEOUT h) = false -> find_whiteout K (fs s1) path <> 0) ->
  find_file_ro h K context path real_path flags s1
  = readonly_tail h K context path (ro_path context path)
      (record_calls s1
         ([EvLstat (ro_path context path)]
          ++ (if is_flag_set flags (IGNORE_WHITEOUT h) then []
              else [EvFindWhiteout path]))).
Proof.
  intros Hcopy Hfit Hpres Hwh. unfold present in Hpres.
  unfold find_file_ro. rewrite Hcopy.
  rewrite (make_ro_path_fits _ _ Hfit), (not_too_long _ Hfit).
  unfold bind at 1. unfold call_vfs_lstat.
  destruct (Z.ltb_spec (vfs_lstat K (fs s1) (ro_path context path)) 0); [lia|].
  destruct (is_flag_set flags (IGNORE_WHITEOUT h)); cbn [negb app].
  - reflexivity.
  - unfold bind at 1. unfold call_find_whiteout. cbn [fs trace].
    destruct (Z.eqb_spec (find_whiteout K (fs s1) path) 0) as [E|_].
    + exfalso. exact (Hwh eq_refl E).
    + unfold record_calls. cbn [fs trace]. rewrite <- app_assoc. reflexivity.
Qed.

(** X8.  The read-only outcome.  When the lookup is not sent to the
    writable branch, or the stat there fails and [MUST_READ_WRITE] is
    not set, and without [CREATE_COPYUP]: for a path whose read-only
    form fits and is there, with no whiteout found or none asked for,
    and [can_traverse] succeeding, [find_file] returns [READ_ONLY] with
    the read-only branch path.  Any answer of [find_whiteout] other than
    0, an error included, counts as no whiteout. *)
Theorem find_file_read_only (path real_path : cstring) (flags : Z)
    (s s' : state world) :
  is_flag_set flags (CREATE_COPYUP h) = false ->
  (is_flag_set flags (MUST_READ_ONLY h) = false ->
   is_flag_set flags (MUST_READ_WRITE h) = false
   /\ strlen (rw_path context path) < PATH_MAX
   /\ vfs_lstat K (fs s) (rw_path context path) < 0) ->
  strlen (ro_path context path) < PATH_MAX ->
  present K (fs s) (ro_path context path) ->
  (is_flag_set flags (IGNORE_WHITEOUT h) = false -> find_whiteout K (fs s) path <> 0) ->
  can_traverse K context path (record_calls s (lookup_calls h context path flags))
    = Done 0 s' ->
  find_file h K context path real_path flags s
  = Done (READ_ONLY h, ro_path context path) s'.
Proof.
  intros Hcopy Hrw Hfit Hpres Hwh Htrav.
  destruct (find_file_falls_back path real_path flags s Hrw) as [buf ->].
  rewrite read_only_branch_reached by assumption.
  rewrite lookup_calls_split. unfold readonly_tail, bind.
  rewrite Htrav. reflexivity.
Qed.

(** X9.  [MUST_READ_WRITE]: when the stat of the writable form fails,
    its error is the answer; the read-only branch is not consulted,
    the one call made is that stat. *)
Theorem find_file_must_read_write (path real_path : cstring) (flags : Z)
    (s : state world) :
  is_flag_set flags (MUST_READ_ONLY h) = false ->
  is_flag_set flags (MUST_READ_WRITE h) = true ->
  strlen (rw_path context path) < PATH_MAX ->
  vfs_lstat K (fs s) (rw_path context path) < 0 ->
  find_file h K context path real_path flags s
  = Done (vfs_lstat K (fs s) (rw_path context path), rw_path context path)
         (record_calls s [EvLstat (rw_path context path)]).
Proof.
  intros Hro Hrw Hfit Hstat. unfold find_file. rewrite Hro. cbn [negb].
  rewrite (make_rw_path_fits _ _ Hfit), (not_too_long _ Hfit).
  unfold bind, call_vfs_lstat.
  destruct (Z.ltb_spec (vfs_lstat K (fs s) (rw_path context path)) 0); [|lia].
  rewrite Hrw. reflexivity.
Qed.

(** X10.  In the copy-up branch a negative answer of [find_whiteout],
    that of a path without whiteout included, ends the lookup: it is
    the result of [find_file], and [create_copyup] is not called. *)
Theorem find_file_copyup_stops_without_whiteout (path real_path : cstring)
    (flags : Z) (s : state world) :
  is_flag_set flags (CREATE_COPYUP h) = true ->
  is_flag_set flags (IGNORE_WHITEOUT h) = false ->
  (is_flag_set flags (MUST_READ_ONLY h) = false ->
   is_flag_set flags (MUST_READ_WRITE h) = false
   /\ strlen (rw_path context path) < PATH_MAX
   /\ vfs_lstat K (fs s) (rw_path context path) < 0) ->
  strlen (ro_path context path) < PATH_MAX ->
  present K (fs s) (ro_path context path) ->
  find_whiteout K (fs s) path < 0 ->
  exists buf,
    find_file h K context path real_path flags s
    = Done (find_whiteout K (fs s) path, buf)
           (record_calls s (lookup_calls h context path flags)).
Proof.
  intros Hcopy Hign Hrw Hfit Hpres Hwh. unfold present in Hpres.
  destruct (find_file_falls_back path real_path flags s Hrw) as [buf ->].
  exists buf. rewrite <- lookup_calls_split. rewrite Hign.
  unfold find_file_ro. rewrite Hcopy, Hign.
  rewrite (make_ro_path_fits _ _ Hfit), (not_too_long _ Hfit).
  unfold bind at 1. unfold call_vfs_lstat. rewrite fs_record_calls.
  destruct (Z.ltb_spec (vfs_lstat K (fs s) (ro_path context path)) 0); [lia|].
  cbn [negb]. unfold bind, call_find_whiteout. cbn [fs trace].
  destruct (Z.ltb_spec (find_whiteout K (fs s) path) 0); [|lia].
  unfold ret, record_calls. cbn [fs trace app].
  rewrite <- !app_assoc. reflexivity.
Qed.

(** X11.  A traversal that fails is final: for a path that is there in
    the writable branch, the negative answer of [can_traverse] is the
    result of [find_file]; the read-only branch is not tried. *)
Theorem find_file_traversal_denied (path real_path : cstring) (flags err : Z)
    (s s' : state world) :
  is_flag_set flags (MUST_READ_ONLY h) = false ->
  strlen (rw_path context path) < PATH_MAX ->
  present K (fs s) (rw_path context path) ->
  can_traverse K context path (record_calls s [EvLstat (rw_path context path)])
    = Done err s' ->
  err < 0 ->
  find_file h K context path real_path flags s
  = Done (err, rw_path context path) s'.
Proof.
  intros Hflag Hfit Hstat Htrav Herr. unfold present in Hstat.
  unfold find_file. rewrite Hflag. cbn [negb].
  rewrite (make_rw_path_fits _ _ Hfit), (not_too_long _ Hfit).
  unfold bind at 1. unfold call_vfs_lstat.
  destruct (Z.ltb_spec (vfs_lstat K (fs s) (rw_path context path)) 0); [lia|].
  unfold bind. fold (record_calls s [EvLstat (rw_path context path)]).
  rewrite Htrav.
  destruct (Z.ltb_spec err 0); [reflexivity | lia].
Qed.


(** X13.  Copy-up with [IGNORE_WHITEOUT]: for a path that is there in
    the read-only branch, once [can_traverse] has succeeded
    [create_copyup] is called with the union path and the read-only
    branch path; its answer 0 gives [READ_WRITE_COPYUP], any other
    answer is returned as it is; the buffer is what [create_copyup] left
    in it.  The whiteouts are not consulted. *)
Theorem find_file_copies_up (path real_path : cstring) (flags : Z)
    (s s1 : state world) :
  is_flag_set flags (CREATE_COPYUP h) = true ->
  is_flag_set flags (IGNORE_WHITEOUT h) = true ->
  (is_flag_set flags (MUST_READ_ONLY h) = false ->
   is_flag_set flags (MUST_READ_WRITE h) = false
   /\ strlen (rw_path context path) < PATH_MAX
   /\ vfs_lstat K (fs s) (rw_path context path) < 0) ->
  strlen (ro_path context path) < PATH_MAX ->
  present K (fs s) (ro_path context path) ->
  can_traverse K context path (record_calls s (lookup_calls h context path flags))
    = Done 0 s1 ->
  find_file h K context path real_path flags s
  = let '(err, buf, w) := create_copyup K (fs s1) path (ro_path context path) in
    Done (if err =? 0 then READ_WRITE_COPYUP h else err, buf)
         {| fs := w;
            trace := trace s1 ++ [EvCreateCopyup path (ro_path context path)] |}.
Proof.
  intros Hcopy Hign Hrw Hfit Hpres Htrav. unfold present in Hpres.
  destruct (find_file_falls_back path real_path flags s Hrw) as [buf ->].
  rewrite <- lookup_calls_split in Htrav. rewrite Hign in Htrav.
  unfold find_file_ro. rewrite Hcopy, Hign.
  rewrite (make_ro_path_fits _ _ Hfit), (not_too_long _ Hfit).
  unfold bind at 1. unfold call_vfs_lstat. rewrite fs_record_calls.
  destruct (Z.ltb_spec (vfs_lstat K (fs s) (ro_path context path)) 0); [lia|].
  cbn [negb]. unfold copyup_tail, bind.
  change ({| fs := fs s;
             trace := trace (record_calls s
                        (if is_flag_set flags (MUST_READ_ONLY h) then []
                         else [EvLstat (rw_path context path)]))
                      ++ [EvLstat (ro_path context path)] |})
    with (record_calls
            (record_calls s (if is_flag_set flags (MUST_READ_ONLY h) then []
                             else [EvLstat (rw_path context path)]))
            ([EvLstat (ro_path context path)] ++ [])).
  rewrite Htrav. change (0 <? 0) with false. cbv iota.
  unfold call_create_copyup.
  destruct (create_copyup K (fs s1) path (ro_path context path)) as [[err b] w].
  destruct (err =? 0); reflexivity.
Qed.

End ResolverFacts.

Section ResolverEffects.

Variable world : Type.
Variable h : hepunion_h.
Variable K : kernel world.
Variable context : hepunion_sb_info.

Variable P : event -> Prop.
Hypothesis P_get_attr : forall e, is_get_attr e -> P e.

Lemma can_traverse_adds (path : cstring) (s s' : state world) (r : Z) :
  can_traverse K context path s = Done r s' -> adds P s s'.
Proof.
  intros H. apply can_traverse_effects in H. destruct H as [_ [_ H]].
  revert H. apply adds_weaken. exact P_get_attr.
Qed.

(** The calls of the second half of [find_file]. *)
Lemma find_file_ro_adds (path real_path : cstring) (flags : Z)
    (s s' : state world) (r : Z * cstring) :
  P (EvLstat (snd (make_ro_path context path))) ->
  P (EvFindWhiteout path) ->
  (is_flag_set flags (CREATE_COPYUP h) = true ->
   P (EvCreateCopyup path (snd (make_ro_path context path)))) ->
  find_file_ro h K context path real_path flags s = Done r s' ->
  adds P s s'.
Proof.
  intros Pstat Pwh Pcopy. unfold find_file_ro.
  destruct (make_ro_path context path) as [n ro] eqn:Ero. cbn [snd] in *.
  assert (Htail_ro : forall buf s1 r1 s2,
    readonly_tail h K context path buf s1 = Done r1 s2 -> adds P s1 s2).
  { intros buf s1 r1 s2. unfold readonly_tail, bind.
    destruct (can_traverse K context path s1) as [e s3|] eqn:Et; [|discriminate].
    apply can_traverse_adds in Et.
    destruct (e <? 0); intros H; injection H as _ <-; exact Et. }
  assert (Htail_up : is_flag_set flags (CREATE_COPYUP h) = true ->
    forall buf s1 r1 s2,
    copyup_tail h K context path ro buf s1 = Done r1 s2 -> adds P s1 s2).
  { intros Hc buf s1 r1 s2. unfold copyup_tail, bind.
    destruct (can_traverse K context path s1) as [e s3|] eqn:Et; [|discriminate].
    apply can_traverse_adds in Et.
    destruct (e <? 0).
    - intros H. injection H as _ <-. exact Et.
    - unfold call_create_copyup.
      destruct (create_copyup K (fs s3) path ro) as [[err b] w].
      intros H. eapply adds_trans; [exact Et|].
      exists [EvCreateCopyup path ro].
      destruct (err =? 0); injection H as _ <-;
        (split; [reflexivity | repeat constructor; exact (Pcopy Hc)]). }
  destruct (is_flag_set flags (CREATE_COPYUP h)) eqn:Hc.
  - destruct (PATH_MAX <? n).
    { intros H. injection H as _ <-. apply adds_refl. }
    unfold bind at 1. unfold call_vfs_lstat.
    destruct (_ <? 0).
    { intros H. injection H as _ <-. apply adds_one. exact Pstat. }
    destruct (negb (is_flag_set flags (IGNORE_WHITEOUT h))).
    + unfold bind at 1. unfold call_find_whiteout. cbn [fs trace].
      destruct (_ <? 0).
      * intros H. injection H as _ <-.
        eapply adds_trans; [apply adds_one; exact Pstat|].
        apply (adds_one world P (record_calls s [EvLstat ro])). exact Pwh.
      * intros H. apply (Htail_up eq_refl) in H.
        eapply adds_trans; [|exact H].
        eapply adds_trans; [apply adds_one; exact Pstat|].
        apply (adds_one world P (record_calls s [EvLstat ro])). exact Pwh.
    + intros H. apply (Htail_up eq_refl) in H.
      eapply adds_trans; [|exact H]. apply adds_one. exact Pstat.
  - destruct (PATH_MAX <? n).
    { intros H. injection H as _ <-. apply adds_refl. }
    unfold bind at 1. unfold call_vfs_lstat.
    destruct (_ <? 0).
    { intros H. injection H as _ <-. apply adds_one. exact Pstat. }
    destruct (negb (is_flag_set flags (IGNORE_WHITEOUT h))).
    + unfold bind at 1. unfold call_find_whiteout. cbn [fs trace].
      destruct (_ =? 0).
      * intros H. injection H as _ <-.
        eapply adds_trans; [apply adds_one; exact Pstat|].
        apply (adds_one world P (record_calls s [EvLstat ro])). exact Pwh.
      * intros H. apply Htail_ro in H.
        eapply adds_trans; [|exact H].
        eapply adds_trans; [apply adds_one; exact Pstat|].
        apply (adds_one world P (record_calls s [EvLstat ro])). exact Pwh.
    + intros H. apply Htail_ro in H.
      eapply adds_trans; [|exact H]. apply adds_one. exact Pstat.
Qed.

(** The calls of [find_file]. *)
Lemma find_file_adds (path real_path : cstring) (flags : Z)
    (s s' : state world) (r : Z * cstring) :
  (is_flag_set flags (MUST_READ_ONLY h) = false ->
   P (EvLstat (snd (make_rw_path context path)))) ->
  P (EvLstat (snd (make_ro_path context path))) ->
  P (EvFindWhiteout path) ->
  (is_flag_set flags (CREATE_COPYUP h) = true ->
   P (EvCreateCopyup path (snd (make_ro_path context path)))) ->
  find_file h K context path real_path flags s = Done r s' ->
  adds P s s'.
Proof.
  intros Prw Pro Pwh Pcopy. unfold find_file.
  destruct (is_flag_set flags (MUST_READ_ONLY h)); cbn [negb].
  - apply find_file_ro_adds; assumption.
  - specialize (Prw eq_refl).
    destruct (make_rw_path context path) as [n rw]. cbn [snd] in Prw.
    destruct (PATH_MAX <? n).
    { intros H. injection H as _ <-. apply adds_refl. }
    unfold bind at 1. unfold call_vfs_lstat.
    destruct (_ <? 0).
    + destruct (is_flag_set flags (MUST_READ_WRITE h)).
      * intros H. injection H as _ <-. apply adds_one. exact Prw.
      * intros H. apply find_file_ro_adds in H; try assumption.
        eapply adds_trans; [|exact H]. apply adds_one. exact Prw.
    + unfold bind.
      destruct (can_traverse K context path _) as [e s3|] eqn:Et; [|discriminate].
      apply can_traverse_adds in Et.
      intros H.
      assert (s' = s3) as -> by (destruct (e <? 0); injection H as _ <-; reflexivity).
      eapply adds_trans; [|exact Et]. apply adds_one. exact Prw.
Qed.

End ResolverEffects.

Section ResolverNever.

Variable world : Type.
Variable h : hepunion_h.
Variable K : kernel world.
Variable context : hepunion_sb_info.

Lemma readonly_tail_keeps_fs (path buf : cstring) (s s' : state world) (r : Z * cstring) :
  readonly_tail h K context path buf s = Done r s' -> fs s' = fs s.
Proof.
  unfold readonly_tail, bind.
  destruct (can_traverse K context path s) as [e s3|] eqn:Et; [|discriminate].
  apply can_traverse_effects in Et. destruct Et as [_ [Hfs _]].
  destruct (e <? 0); intros H; injection H as _ <-; exact Hfs.
Qed.

Lemma find_file_ro_keeps_fs (path real_path : cstring) (flags : Z)
    (s s' : state world) (r : Z * cstring) :
  is_flag_set flags (CREATE_COPYUP h) = false ->
  find_file_ro h K context path real_path flags s = Done r s' -> fs s' = fs s.
Proof.
  intros Hc. unfold find_file_ro. rewrite Hc.
  destruct (make_ro_path context path) as [n ro].
  destruct (PATH_MAX <? n).
  { intros H. injection H as _ <-. reflexivity. }
  unfold bind at 1. unfold call_vfs_lstat.
  destruct (_ <? 0).
  { intros H. injection H as _ <-. reflexivity. }
  destruct (negb (is_flag_set flags (IGNORE_WHITEOUT h))).
  - unfold bind at 1. unfold call_find_whiteout. cbn [fs trace].
    destruct (_ =? 0).
    + intros H. injection H as _ <-. reflexivity.
    + intros H. apply readonly_tail_keeps_fs in H. exact H.
  - intros H. apply readonly_tail_keeps_fs in H. exact H.
Qed.

(** X14.  Without [CREATE_COPYUP] a lookup only reads: whatever the
    path and the other flags, when [find_file] returns, the file system
    is the one it started with and [create_copyup] has not been
    called. *)
Theorem find_file_plain_only_reads (path real_path : cstring) (flags : Z)
    (s s' : state world) (r : Z * cstring) :
  is_flag_set flags (CREATE_COPYUP h) = false ->
  find_file h K context path real_path flags s = Done r s' ->
  fs s' = fs s
  /\ exists evs, trace s' = trace s ++ evs /\ Forall not_create_copyup evs.
Proof.
  intros Hc Hrun. split.
  - revert Hrun. unfold find_file.
    destruct (negb (is_flag_set flags (MUST_READ_ONLY h))).
    + destruct (make_rw_path context path) as [n rw].
      destruct (PATH_MAX <? n).
      { intros H. injection H as _ <-. reflexivity. }
      unfold bind at 1. unfold call_vfs_lstat.
      destruct (_ <? 0).
      * destruct (is_flag_set flags (MUST_READ_WRITE h)).
        -- intros H. injection H as _ <-. reflexivity.
        -- intros H. apply (find_file_ro_keeps_fs _ _ _ _ _ _ Hc) in H. exact H.
      * unfold bind.
        destruct (can_traverse K context path _) as [e s3|] eqn:Et; [|discriminate].
        apply can_traverse_effects in Et. destruct Et as [_ [Hfs _]].
        destruct (e <? 0); intros H; injection H as _ <-; exact Hfs.
    + apply find_file_ro_keeps_fs. exact Hc.
  - apply (find_file_adds world h K context not_create_copyup) in Hrun;
      try exact I; try exact Hrun.
    + intros e He. destruct e; try contradiction; exact I.
    + intros _. exact I.
    + intros Ht. rewrite Hc in Ht. discriminate.
Qed.


End ResolverNever.

(** ** The path translator *)

Section TranslatorFacts.

Variable h : hepunion_h.
Variable sb_info : hepunion_sb_info.

Lemma path_text_length (d_name : cstring) (d_parent : dentry) :
  strlen (path_text (Dentry d_name d_parent))
  = strlen (path_text d_parent) + (strlen d_name + 1).
Proof.
  cbn [path_text]. rewrite strlen_app. unfold strlen. cbn [List.length]. lia.
Qed.

Lemma full_path_loop_fits (d : dentry) (tail : buffer) (buflen : Z) (namelen : option Z) :
  strlen (path_text d) <= buflen ->
  full_path_loop d tail buflen namelen
  = inr (path_text d ++ tail, buflen - strlen (path_text d),
         match top_namelen d with Some n => Some n | None => namelen end).
Proof.
  revert tail buflen namelen.
  induction d as [|d_name d_parent IH]; intros tail buflen namelen Hfit.
  - cbn. rewrite Z.sub_0_r. reflexivity.
  - rewrite path_text_length in Hfit.
    pose proof (Zle_0_nat (List.length (path_text d_parent))) as Hp.
    fold (strlen (path_text d_parent)) in Hp.
    cbn [full_path_loop].
    destruct (Z.ltb_spec (buflen - (strlen d_name + 1)) 0); [lia|].
    rewrite IH by lia. rewrite path_text_length. cbn [path_text top_namelen].
    rewrite <- app_assoc. cbn [app].
    f_equal. f_equal; [f_equal; lia|].
    destruct (top_namelen d_parent); reflexivity.
Qed.

Lemma full_path_loop_overflow (d : dentry) (tail : buffer) (buflen : Z)
    (namelen : option Z) :
  buflen < strlen (path_text d) -> 0 <= buflen ->
  full_path_loop d tail buflen namelen = inl (- ENAMETOOLONG).
Proof.
  revert tail buflen namelen.
  induction d as [|d_name d_parent IH]; intros tail buflen namelen Hlong Hpos.
  - cbn in Hlong. lia.
  - rewrite path_text_length in Hlong. cbn [full_path_loop].
    destruct (Z.ltb_spec (buflen - (strlen d_name + 1)) 0); [reflexivity|].
    apply IH; lia.
Qed.

(** X16.  The loop of [get_full_path] does build the path: with room
    for it, the text [/n1/.../nk] of the entry is put in front of what
    the buffer holds behind [end], the room goes down by the length of
    that text, and [namelen] is left at the length of the name directly
    under the root. *)
Theorem full_path_loop_builds_text (d : dentry) (tail : buffer) (buflen : Z)
    (namelen : option Z) :
  strlen (path_text d) <= buflen ->
  full_path_loop d tail buflen namelen
  = inr (path_text d ++ tail, buflen - strlen (path_text d),
         match top_namelen d with Some n => Some n | None => namelen end).
Proof.
  intros Hfit. rewrite full_path_loop_fits by exact Hfit. reflexivity.
Qed.

(** X17.  An entry whose path does not leave two bytes of [MAX_PATH]
    free is refused: [get_full_path] answers [-ENAMETOOLONG] and does
    not touch the buffer of its caller. *)
Theorem get_full_path_too_long (i : inode) (d : dentry) (buf : buffer) :
  i_nlink i = 0 -> 1 <= MAX_PATH h ->
  MAX_PATH h - 2 < strlen (path_text d) ->
  get_full_path h i (Some d) buf = Done (- ENAMETOOLONG) buf.
Proof.
  intros Hlink Hmax Hlong. unfold get_full_path. rewrite Hlink.
  change (negb (0 =? 0)) with false. cbv iota.
  destruct (Z_lt_le_dec (MAX_PATH h - 1) (strlen (path_text d))) as [Hover|Hin].
  - rewrite full_path_loop_overflow by lia. reflexivity.
  - rewrite full_path_loop_fits by lia.
    destruct (Z.ltb_spec (MAX_PATH h - 1 - strlen (path_text d) - 1) 0); [reflexivity | lia].
Qed.

Lemma top_namelen_nonneg (d : dentry) (n : Z) : top_namelen d = Some n -> 0 <= n.
Proof.
  induction d as [|d_name d_parent IH]; cbn [top_namelen]; [discriminate|].
  destruct (top_namelen d_parent) as [m|].
  - intros H. injection H as <-. apply IH. reflexivity.
  - intros H. injection H as <-. unfold strlen. lia.
Qed.

(** What a run of [get_full_path] that delivers a text has gone
    through. *)
Lemma get_full_path_done (i : inode) (d : dentry) (buf buf' : buffer) (r : Z) :
  get_full_path h i (Some d) buf = Done r buf' -> 0 <= r ->
  r = MAX_PATH h - 2 - strlen (path_text d)
  /\ exists n,
       top_namelen d = Some n /\ n <= 2
       /\ MAX_PATH h <= 2 * strlen (path_text d) + n + 3
       /\ buf' = firstn (Z.to_nat r)
                   (firstn (Z.to_nat n) [slash; NUL] ++ path_text d ++ [NUL])
                 ++ skipn (Z.to_nat r) buf.
Proof.
  unfold get_full_path.
  destruct (negb (i_nlink i =? 0)); [discriminate|].
  destruct (Z_lt_le_dec (MAX_PATH h - 1) (strlen (path_text d))) as [Hover|Hin].
  - destruct (Z_lt_le_dec (MAX_PATH h - 1) 0) as [Hneg|Hpos].
    + (* no room at all: the loop runs on a negative count *)
      destruct d as [|d_name d_parent].
      * cbn [full_path_loop].
        destruct (Z.ltb_spec (MAX_PATH h - 1 - 1) 0); [|lia].
        intros Hrun. injection Hrun as <- _. unfold ENAMETOOLONG. lia.
      * cbn [full_path_loop].
        pose proof (Zle_0_nat (List.length d_name)) as Hn. fold (strlen d_name) in Hn.
        destruct (Z.ltb_spec (MAX_PATH h - 1 - (strlen d_name + 1)) 0); [|lia].
        intros Hrun. injection Hrun as <- _. unfold ENAMETOOLONG. lia.
    + rewrite full_path_loop_overflow by lia.
      intros Hrun. injection Hrun as <- _. unfold ENAMETOOLONG. lia.
  - rewrite full_path_loop_fits by lia.
    destruct (Z.ltb_spec (MAX_PATH h - 1 - strlen (path_text d) - 1) 0).
    { intros Hrun. injection Hrun as <- _. unfold ENAMETOOLONG. lia. }
    destruct (top_namelen d) as [n|] eqn:Etop; [|discriminate].
    pose proof (top_namelen_nonneg d n Etop) as Hn0.
    destruct (Z.ltb_spec (MAX_PATH h - 1 - strlen (path_text d) - 1 + 1 - n) 0);
      [discriminate|].
    destruct (Z.ltb_spec 2 n); [discriminate|].
    destruct (Z.ltb_spec
                (strlen (firstn (Z.to_nat n) [slash; NUL] ++ path_text d ++ [NUL]))
                (MAX_PATH h - 1 - strlen (path_text d) - 1)) as [|Hroom];
      [discriminate|].
    unfold bind, memcpy, ret. intros Hrun Hr. injection Hrun as <- <-.
    rewrite !strlen_app in Hroom. change (strlen [NUL]) with 1 in Hroom.
    assert (Hpre : strlen (firstn (Z.to_nat n) [slash; NUL]) <= n).
    { unfold strlen. rewrite length_firstn. cbn [List.length]. lia. }
    split; [lia|]. exists n.
    split; [reflexivity|]. split; [assumption|]. split; [lia | reflexivity].
Qed.

(** X18.  What [get_full_path] returns when it does not fail is the room
    left in its buffer, [MAX_PATH - 2] less the length of the path, not
    that length; and it does so only for an entry whose ancestor
    directly under the root has a name of at most two characters, and
    whose path fills about half of the buffer or more. *)
Theorem get_full_path_returns_room_left (i : inode) (d : dentry)
    (buf buf' : buffer) (r : Z) :
  get_full_path h i (Some d) buf = Done r buf' -> 0 <= r ->
  r = MAX_PATH h - 2 - strlen (path_text d)
  /\ exists n,
       top_namelen d = Some n /\ n <= 2
       /\ MAX_PATH h <= 2 * strlen (path_text d) + n + 3.
Proof.
  intros Hrun Hr.
  destruct (get_full_path_done i d buf buf' r Hrun Hr) as [E [n [Ht [Hn [Hm _]]]]].
  split; [exact E|]. exists n. repeat split; assumption.
Qed.

Lemma full_path_loop_error (d : dentry) (tail : buffer) (buflen e : Z)
    (namelen : option Z) :
  full_path_loop d tail buflen namelen = inl e -> e = - ENAMETOOLONG.
Proof.
  revert tail buflen namelen.
  induction d as [|d_name d_parent IH]; intros tail buflen namelen; cbn [full_path_loop].
  - discriminate.
  - destruct (_ <? 0); [intros H; injection H as <-; reflexivity | apply IH].
Qed.

Lemma get_full_path_result (i : inode) (d : option dentry) (buf buf' : buffer) (r : Z) :
  get_full_path h i d buf = Done r buf' ->
  (r = - ENAMETOOLONG /\ buf' = buf) \/ 0 <= r.
Proof.
  unfold get_full_path.
  destruct (negb (i_nlink i =? 0)); [discriminate|].
  destruct (match d with Some d0 => Some d0 | None => i_dentry i end) as [d0|];
    [|discriminate].
  destruct (full_path_loop d0 [NUL] (MAX_PATH h - 1) None) as [e|[[tail buflen] namelen]] eqn:E.
  - apply full_path_loop_error in E. subst e.
    intros Hrun. injection Hrun as <- <-. left. split; reflexivity.
  - destruct (Z.ltb_spec (buflen - 1) 0).
    { intros Hrun. injection Hrun as <- <-. left. split; reflexivity. }
    destruct namelen as [n|]; [|discriminate].
    destruct (_ <? 0); [discriminate|].
    destruct (2 <? n); [discriminate|].
    destruct (_ <? buflen - 1); [discriminate|].
    unfold bind, memcpy, ret. intros Hrun. injection Hrun as <- _. right. assumption.
Qed.

(** X19.  The answers of [get_relative_path]: 0, [-ENODATA] when no
    root matches, [-ENAMETOOLONG] from [get_full_path], and nothing
    else; with an answer other than 0 the buffer of the caller is
    untouched. *)
Theorem get_relative_path_answers (i : inode) (d : option dentry)
    (stack buf buf' : buffer) (r : Z) :
  get_relative_path h sb_info i d stack buf = Done r buf' ->
  r = 0 \/ ((r = - ENODATA \/ r = - ENAMETOOLONG) /\ buf' = buf).
Proof.
  unfold get_relative_path.
  destruct (get_full_path h i d stack) as [len real_path|] eqn:E; [|discriminate].
  apply get_full_path_result in E.
  destruct (Z.ltb_spec len 0) as [Hneg|Hpos].
  - destruct E as [[-> _]|E]; [|lia].
    intros Hrun. injection Hrun as <- <-. right. split; [right|]; reflexivity.
  - unfold strip_branch.
    destruct (cstring_eqb _ _).
    + destruct (_ <? 0); [discriminate|].
      unfold bind, memcpy, ret. intros Hrun. injection Hrun as <- _. left. reflexivity.
    + destruct (cstring_eqb _ _).
      * destruct (_ <? 0); [discriminate|].
        unfold bind, memcpy, ret. intros Hrun. injection Hrun as <- _. left. reflexivity.
      * intros Hrun. injection Hrun as <- <-. right. split; [left|]; reflexivity.
Qed.

Lemma cstring_eqb_false (a b : cstring) : a <> b -> cstring_eqb a b = false.
Proof.
  revert b. induction a as [|x a IH]; intros [|y b] Hne; cbn [cstring_eqb];
    try reflexivity.
  - contradiction.
  - destruct (Ascii.eqb_spec x y) as [->|]; [|reflexivity].
    cbn [andb]. apply IH. intros ->. apply Hne. reflexivity.
Qed.

Lemma firstn_prefix (a b : cstring) : firstn (List.length a) (a ++ b) = a.
Proof.
  rewrite firstn_app, Nat.sub_diag, firstn_all. cbn [firstn]. apply app_nil_r.
Qed.

(** The writable test of [get_relative_path], on the bytes of a path
    under the writable root that does not start with the read-only
    root. *)
Lemma strip_branch_writable (c : ascii) (p rest buf : buffer) :
  firstn (ro_len sb_info) (read_write_branch sb_info ++ (c :: p) ++ rest)
    <> read_only_branch sb_info ->
  strip_branch sb_info (read_write_branch sb_info ++ (c :: p) ++ rest)
    (strlen (read_write_branch sb_info ++ c :: p)) buf
  = Done 0 (p ++ skipn (List.length p) buf).
Proof.
  intros Hro. unfold strip_branch.
  rewrite (cstring_eqb_false (read_only_branch sb_info)) by (intros E; apply Hro; symmetry; exact E).
  unfold rw_len. rewrite firstn_prefix, cstring_eqb_refl.
  rewrite strlen_app. unfold strlen. cbn [List.length].
  replace (Z.of_nat (List.length (read_write_branch sb_info))
           + Z.of_nat (S (List.length p)) - 1
           - Z.of_nat (List.length (read_write_branch sb_info)))
    with (Z.of_nat (List.length p)) by lia.
  destruct (Z.ltb_spec (Z.of_nat (List.length p)) 0); [lia|].
  unfold bind, memcpy, ret. rewrite Nat2Z.id.
  rewrite <- skipn_skipn.
  rewrite skipn_app, Nat.sub_diag, skipn_all. cbn [skipn app].
  rewrite firstn_prefix. reflexivity.
Qed.

(** X20.  What [get_relative_path] does with a well-formed full path:
    for the bytes of [root ++ c :: p] and their length, it answers 0 and
    puts [p] at the head of the caller's buffer, without the character
    [c] that follows the root (the leading slash of the union path) and
    without a terminator.  The read-only root is tried first and is
    taken whenever the bytes start with it, also when they are a path of
    the writable branch; the writable root is taken when they do not. *)
Theorem strip_branch_skips_one_more (c : ascii) (p rest buf : buffer) :
  strip_branch sb_info (read_only_branch sb_info ++ (c :: p) ++ rest)
    (strlen (read_only_branch sb_info ++ c :: p)) buf
  = Done 0 (p ++ skipn (List.length p) buf)
  /\ (firstn (ro_len sb_info) (read_write_branch sb_info ++ (c :: p) ++ rest)
        <> read_only_branch sb_info ->
      strip_branch sb_info (read_write_branch sb_info ++ (c :: p) ++ rest)
        (strlen (read_write_branch sb_info ++ c :: p)) buf
      = Done 0 (p ++ skipn (List.length p) buf)).
Proof.
  split.
  - apply strip_branch_drops_first_char.
  - apply strip_branch_writable.
Qed.

End TranslatorFacts.

(** ** The recursive mutex *)

Module RecursiveMutexMore.
Import RecursiveMutex RecursiveMutexFacts.

(** X21.  A nested pair is neutral: on a mutex that [ti] holds at a
    depth below the turn of the counter, [recursive_mutex_lock] by [ti]
    returns without touching the spin lock, and the
    [recursive_mutex_unlock] that follows gives back the mutex as it
    was. *)
Theorem nested_pair_is_neutral (ti : tid) (c : Z) :
  1 <= c < 2 ^ 32 ->
  recursive_mutex_lock ti (held ti c) = Returns (held ti (c + 1))
  /\ recursive_mutex_unlock (held ti (c + 1)) = Returns (held ti c).
Proof.
  intros Hc. split.
  - apply lock_held. exact Hc.
  - rewrite unlock_held by lia. do 2 f_equal. lia.
Qed.

Lemma lock_other (ti tj : tid) (c : Z) :
  ti <> tj -> 1 <= c < 2 ^ 32 ->
  recursive_mutex_lock tj (held ti c) = Blocks (held ti (c + 1)).
Proof.
  intros Hne Hc. unfold recursive_mutex_lock, atomic_add_return, held.
  cbn [count lock owner]. rewrite wrap32_idem.
  rewrite wrap32_not_1 by lia.
  unfold owner_is. cbn [owner].
  destruct (Nat.eqb_spec ti tj) as [E|_]; [contradiction|].
  reflexivity.
Qed.

(** X22.  Exclusion: while [ti] holds the mutex, at any depth below the
    turn of the counter, [recursive_mutex_lock] by another thread does
    not return; it has counted itself in and spins, the owner and the
    holder of the spin lock unchanged. *)
Theorem other_thread_spins (ti tj : tid) (c : Z) :
  ti <> tj -> 1 <= c < 2 ^ 32 ->
  recursive_mutex_lock tj (held ti c)
  = Blocks {| count := wrap32 (c + 1);
              lock := {| holder := Some ti; acquisitions := 1 |};
              owner := Some ti |}.
Proof.
  intros Hne Hc. rewrite lock_other by assumption. reflexivity.
Qed.

(** X23.  The waiter is never let in: once another thread has counted
    itself in and spins, the [c] calls of [recursive_mutex_unlock] that
    undo the [c] acquisitions of the holder leave the counter at 1, so
    that the last of them does not reach the branch that unlocks: the
    spin lock stays taken and the owner stays set. *)
Theorem release_with_waiter_keeps_lock (ti tj : tid) (c : nat) :
  ti <> tj -> (1 <= c)%nat -> Z.of_nat c < 2 ^ 32 ->
  recursive_mutex_lock tj (held ti (Z.of_nat c)) = Blocks (held ti (Z.of_nat c + 1))
  /\ repeat_call recursive_mutex_unlock c (held ti (Z.of_nat c + 1))
     = Returns {| count := 1;
                  lock := {| holder := Some ti; acquisitions := 1 |};
                  owner := Some ti |}.
Proof.
  intros Hne H1 Hc. split.
  - apply lock_other; [assumption | lia].
  - rewrite unwind by lia.
    replace (Z.of_nat c + 1 - Z.of_nat c) with 1 by lia. reflexivity.
Qed.

(** X24.  A race on a fresh mutex.  A thread [t2] that calls
    [recursive_mutex_lock] after [t1] has counted itself in (the counter
    is 1, [t1] is on its way to [spin_lock]) finds the counter at 2 and
    no owner, takes the spin lock and returns without being recorded as
    owner.  From then on [t1] spins, and so does [t2] at its next
    call, on the lock it holds. *)
Theorem race_on_fresh_mutex (t1 t2 : tid) :
  atomic_add_return 1 recursive_mutex_init
    = (1, {| count := 1; lock := {| holder := None; acquisitions := 0 |};
             owner := None |})
  /\ recursive_mutex_lock t2
       {| count := 1; lock := {| holder := None; acquisitions := 0 |}; owner := None |}
     = Returns {| count := 2; lock := {| holder := Some t2; acquisitions := 1 |};
                  owner := None |}
  /\ step t1 (LockSpin true)
       {| count := 2; lock := {| holder := Some t2; acquisitions := 1 |}; owner := None |}
     = None
  /\ recursive_mutex_lock t2
       {| count := 2; lock := {| holder := Some t2; acquisitions := 1 |}; owner := None |}
     = Blocks {| count := 3; lock := {| holder := Some t2; acquisitions := 1 |};
                 owner := None |}.
Proof.
  split; [reflexivity|]. split; [reflexivity|]. split; reflexivity.
Qed.

End RecursiveMutexMore.

(** ** More runs on the small file system *)

Module MoreRuns.
Import Toy Samples.

Ltac run := vm_compute; solve [reflexivity | discriminate | intro; discriminate].

(** Hypotheses that are conjunctions or implications of closed facts. *)
Ltac settle := solve [run | intros ?; settle | split; settle].

Lemma can_access_downward_closed_rwx_rx :
  (get_file_attr_worker user (fs (boot both_branches)) (cstr "/a") (cstr "/ro/a")
     = (0, dir_755)
   /\ 0 <= 7 < 8 /\ 0 <= 5 < 8 /\ Z.land 5 7 = 5
   /\ can_access user (cstr "/a") (cstr "/ro/a") 7 (boot both_branches)
      = Done 0 (record_calls (boot both_branches) [EvGetAttr (cstr "/a") (cstr "/ro/a")]))
  /\ can_access user (cstr "/a") (cstr "/ro/a") 5 (boot both_branches)
     = Done 0 (record_calls (boot both_branches) [EvGetAttr (cstr "/a") (cstr "/ro/a")]).
Proof.
  split; [settle |].
  apply (can_access_downward_closed toy_fs user (cstr "/a") (cstr "/ro/a") 7 5
           (boot both_branches) _ dir_755); settle.
Defined.

Lemma can_remove_trailing_slash_rw_a :
  (cstr "/rw/a" <> [] /\ strlen (cstr "/rw/a") < PATH_MAX)
  /\ can_remove user (cstr "/a") (cstr "/rw/a/") (boot both_branches)
     = can_access user (cstr "/a") (cstr "/rw/a") W_OK (boot both_branches).
Proof.
  split; [settle |].
  apply (can_remove_trailing_slash toy_fs user (cstr "/a") (cstr "/rw/a")
           (boot both_branches)); settle.
Defined.

Lemma can_traverse_only_looks_a_b_f :
  can_traverse user mount (cstr "/a/b/f") (boot both_branches)
    = Done 0 (record_calls (boot both_branches)
                [EvGetAttr (cstr "/a") (cstr "/ro/a");
                 EvGetAttr (cstr "/a/b") (cstr "/ro/a/b")])
  /\ (0 <= 0
      /\ fs (record_calls (boot both_branches)
                [EvGetAttr (cstr "/a") (cstr "/ro/a");
                 EvGetAttr (cstr "/a/b") (cstr "/ro/a/b")])
         = fs (boot both_branches)
      /\ exists evs,
           trace (record_calls (boot both_branches)
                    [EvGetAttr (cstr "/a") (cstr "/ro/a");
                     EvGetAttr (cstr "/a/b") (cstr "/ro/a/b")])
           = trace (boot both_branches) ++ evs
           /\ Forall is_get_attr evs).
Proof.
  split; [run |].
  apply (can_traverse_only_looks toy_fs user mount (cstr "/a/b/f")
           (boot both_branches)).
  run.
Defined.

Lemma can_traverse_root_too_long_huge :
  PATH_MAX < strlen (read_only_branch huge_root) + 1
  /\ can_traverse user huge_root [slash] (boot both_branches)
     = Done (- ENAMETOOLONG) (boot both_branches).
Proof.
  split; [run |].
  apply (can_traverse_root_too_long toy_fs user huge_root [slash] (boot both_branches)).
  run.
Defined.

Lemma can_traverse_ignores_final_a_b :
  (~ In slash (cstr "f")
   /\ strlen (read_only_branch mount)
      + strlen (slash :: cstr "a/b" ++ slash :: cstr "f") <= PATH_MAX)
  /\ can_traverse user mount (slash :: cstr "a/b" ++ slash :: cstr "f")
       (boot both_branches)
     = can_traverse user mount (slash :: cstr "a/b" ++ [slash]) (boot both_branches).
Proof.
  assert (Hf : ~ In slash (cstr "f")) by (intros [H | []]; discriminate).
  split; [split; [exact Hf | run] |].
  apply (can_traverse_ignores_final toy_fs user mount (cstr "a/b") (cstr "f")
           (boot both_branches) Hf).
  run.
Defined.

Lemma find_file_read_only_a_f :
  (is_flag_set 0 (CREATE_COPYUP linux_h) = false
   /\ strlen (ro_path mount (cstr "/a/f")) < PATH_MAX
   /\ present user (fs (boot ro_only)) (ro_path mount (cstr "/a/f"))
   /\ find_whiteout user (fs (boot ro_only)) (cstr "/a/f") <> 0)
  /\ find_file linux_h user mount (cstr "/a/f") [] 0 (boot ro_only)
     = Done (READ_ONLY linux_h, cstr "/ro/a/f")
            (record_calls (boot ro_only)
               [EvLstat (cstr "/rw/a/f"); EvLstat (cstr "/ro/a/f");
                EvFindWhiteout (cstr "/a/f"); EvGetAttr (cstr "/a") (cstr "/ro/a")]).
Proof.
  split; [settle |].
  apply (find_file_read_only toy_fs linux_h user mount (cstr "/a/f") [] 0
           (boot ro_only)); settle.
Defined.

Lemma find_file_must_read_write_a_f :
  (is_flag_set 1 (MUST_READ_ONLY linux_h) = false
   /\ is_flag_set 1 (MUST_READ_WRITE linux_h) = true
   /\ strlen (rw_path mount (cstr "/a/f")) < PATH_MAX
   /\ vfs_lstat user (fs (boot ro_only)) (rw_path mount (cstr "/a/f")) < 0)
  /\ find_file linux_h user mount (cstr "/a/f") [] 1 (boot ro_only)
     = Done (- ENOENT, cstr "/rw/a/f")
            (record_calls (boot ro_only) [EvLstat (cstr "/rw/a/f")]).
Proof.
  split; [settle |].
  apply (find_file_must_read_write toy_fs linux_h user mount (cstr "/a/f") [] 1
           (boot ro_only)); settle.
Defined.

(** A file of the read-only branch that carries no whiteout is not
    copied up. *)
Lemma find_file_copyup_stops_without_whiteout_a_f :
  (is_flag_set 4 (CREATE_COPYUP linux_h) = true
   /\ is_flag_set 4 (IGNORE_WHITEOUT linux_h) = false
   /\ present user (fs (boot ro_only)) (ro_path mount (cstr "/a/f"))
   /\ find_whiteout user (fs (boot ro_only)) (cstr "/a/f") < 0)
  /\ exists buf,
       find_file linux_h user mount (cstr "/a/f") [] 4 (boot ro_only)
       = Done (- ENOENT, buf)
              (record_calls (boot ro_only)
                 [EvLstat (cstr "/rw/a/f"); EvLstat (cstr "/ro/a/f");
                  EvFindWhiteout (cstr "/a/f")]).
Proof.
  split; [settle |].
  apply (find_file_copyup_stops_without_whiteout toy_fs linux_h user mount
           (cstr "/a/f") [] 4 (boot ro_only)); settle.
Defined.

Lemma find_file_traversal_denied_a_f :
  (is_flag_set 0 (MUST_READ_ONLY linux_h) = false
   /\ strlen (rw_path mount (cstr "/a/f")) < PATH_MAX
   /\ present user (fs (boot closed_dir)) (rw_path mount (cstr "/a/f"))
   /\ can_traverse user mount (cstr "/a/f")
        (record_calls (boot closed_dir) [EvLstat (rw_path mount (cstr "/a/f"))])
      = Done (- EACCES)
          (record_calls (boot closed_dir)
             [EvLstat (cstr "/rw/a/f"); EvGetAttr (cstr "/a") (cstr "/ro/a")])
   /\ - EACCES < 0)
  /\ find_file linux_h user mount (cstr "/a/f") [] 0 (boot closed_dir)
     = Done (- EACCES, cstr "/rw/a/f")
          (record_calls (boot closed_dir)
             [EvLstat (cstr "/rw/a/f"); EvGetAttr (cstr "/a") (cstr "/ro/a")]).
Proof.
  split; [settle |].
  apply (find_file_traversal_denied toy_fs linux_h user mount (cstr "/a/f") [] 0
           (- EACCES) (boot closed_dir)); settle.
Defined.


Lemma find_file_copies_up_a_f :
  (is_flag_set 12 (CREATE_COPYUP linux_h) = true
   /\ is_flag_set 12 (IGNORE_WHITEOUT linux_h) = true
   /\ present user (fs (boot deleted)) (ro_path mount (cstr "/a/f")))
  /\ find_file linux_h user mount (cstr "/a/f") [] 12 (boot deleted)
     = Done (READ_WRITE_COPYUP linux_h, cstr "/rw/a/f")
         {| fs := {| files := (cstr "/rw/a/f", file_644) :: files deleted;
                     whiteouts := whiteouts deleted |};
            trace := [EvLstat (cstr "/rw/a/f"); EvLstat (cstr "/ro/a/f");
                      EvGetAttr (cstr "/a") (cstr "/ro/a");
                      EvCreateCopyup (cstr "/a/f") (cstr "/ro/a/f")] |}.
Proof.
  split; [settle |].
  apply (find_file_copies_up toy_fs linux_h user mount (cstr "/a/f") [] 12
           (boot deleted)
           (record_calls (boot deleted)
              [EvLstat (cstr "/rw/a/f"); EvLstat (cstr "/ro/a/f");
               EvGetAttr (cstr "/a") (cstr "/ro/a")])); settle.
Defined.

Lemma find_file_plain_only_reads_a_f :
  (is_flag_set 0 (CREATE_COPYUP linux_h) = false
   /\ find_file linux_h user mount (cstr "/a/f") [] 0 (boot ro_only)
      = Done (READ_ONLY linux_h, cstr "/ro/a/f")
             (record_calls (boot ro_only)
                [EvLstat (cstr "/rw/a/f"); EvLstat (cstr "/ro/a/f");
                 EvFindWhiteout (cstr "/a/f"); EvGetAttr (cstr "/a") (cstr "/ro/a")]))
  /\ (fs (record_calls (boot ro_only)
             [EvLstat (cstr "/rw/a/f"); EvLstat (cstr "/ro/a/f");
              EvFindWhiteout (cstr "/a/f"); EvGetAttr (cstr "/a") (cstr "/ro/a")])
      = fs (boot ro_only)
      /\ exists evs,
           trace (record_calls (boot ro_only)
                    [EvLstat (cstr "/rw/a/f"); EvLstat (cstr "/ro/a/f");
                     EvFindWhiteout (cstr "/a/f"); EvGetAttr (cstr "/a") (cstr "/ro/a")])
           = trace (boot ro_only) ++ evs
           /\ Forall not_create_copyup evs).
Proof.
  split; [settle |].
  apply (find_file_plain_only_reads toy_fs linux_h user mount (cstr "/a/f") [] 0
           (boot ro_only) _ (READ_ONLY linux_h, cstr "/ro/a/f")); settle.
Defined.


Lemma full_path_loop_builds_text_ro_a :
  strlen (path_text ro_a) <= 4095
  /\ full_path_loop ro_a [NUL] 4095 None
     = inr (cstr "/ro/a" ++ [NUL], 4090, Some 2).
Proof.
  split; [run |].
  apply (full_path_loop_builds_text ro_a [NUL] 4095 None). run.
Defined.

Lemma get_full_path_too_long_too_deep :
  (i_nlink unlinked = 0 /\ 1 <= MAX_PATH linux_h
   /\ MAX_PATH linux_h - 2 < strlen (path_text too_deep))
  /\ get_full_path linux_h unlinked (Some too_deep) [] = Done (- ENAMETOOLONG) [].
Proof.
  split; [settle |].
  apply (get_full_path_too_long linux_h unlinked too_deep []); settle.
Defined.

Lemma get_full_path_returns_room_left_deep :
  (get_full_path linux_h unlinked (Some deep) []
     = Done 1833 (firstn 1833 (slash :: path_text deep))
   /\ 0 <= 1833)
  /\ 1833 = MAX_PATH linux_h - 2 - strlen (path_text deep)
  /\ exists n,
       top_namelen deep = Some n /\ n <= 2
       /\ MAX_PATH linux_h <= 2 * strlen (path_text deep) + n + 3.
Proof.
  split; [settle |].
  apply (get_full_path_returns_room_left linux_h unlinked deep []
           (firstn 1833 (slash :: path_text deep)) 1833); settle.
Defined.

Lemma get_relative_path_answers_deep :
  get_relative_path linux_h short_roots unlinked (Some deep) [] [] = Done (- ENODATA) []
  /\ (- ENODATA = 0
      \/ ((- ENODATA = - ENODATA \/ - ENODATA = - ENAMETOOLONG) /\ @nil ascii = [])).
Proof.
  split; [run |].
  apply (get_relative_path_answers linux_h short_roots unlinked (Some deep) [] [] []).
  run.
Defined.

(** A path of the writable branch [/mnt/u-rw] is taken for one of the
    read-only branch [/mnt/u]. *)
Lemma strip_branch_skips_one_more_nested :
  strip_branch nested_roots (cstr "/mnt/u-rw/a/f" ++ [NUL]) 13 []
  = Done 0 (cstr "rw/a/f")
  /\ strip_branch mount (cstr "/rw/a/f" ++ [NUL]) 7 [] = Done 0 (cstr "a/f").
Proof.
  split.
  - exact (proj1 (strip_branch_skips_one_more nested_roots "-"%char
                    (cstr "rw/a/f") [NUL] [])).
  - apply (proj2 (strip_branch_skips_one_more mount slash (cstr "a/f") [NUL] [])).
    run.
Defined.

Lemma nested_pair_is_neutral_depth_2 :
  1 <= 2 < 2 ^ 32
  /\ RecursiveMutex.recursive_mutex_lock 7%nat (RecursiveMutex.held 7%nat 2) = RecursiveMutex.Returns (RecursiveMutex.held 7%nat (2 + 1))
  /\ RecursiveMutex.recursive_mutex_unlock (RecursiveMutex.held 7%nat (2 + 1)) = RecursiveMutex.Returns (RecursiveMutex.held 7%nat 2).
Proof.
  split; [settle |].
  apply (RecursiveMutexMore.nested_pair_is_neutral 7%nat 2). settle.
Defined.

Lemma other_thread_spins_depth_1 :
  (1%nat <> 2%nat /\ 1 <= 1 < 2 ^ 32)
  /\ RecursiveMutex.recursive_mutex_lock 2%nat (RecursiveMutex.held 1%nat 1)
     = RecursiveMutex.Blocks (RecursiveMutex.held 1%nat 2).
Proof.
  split; [settle |].
  apply (RecursiveMutexMore.other_thread_spins 1%nat 2%nat 1); settle.
Defined.

Lemma release_with_waiter_keeps_lock_depth_2 :
  (1%nat <> 2%nat /\ (1 <= 2)%nat /\ Z.of_nat 2 < 2 ^ 32)
  /\ RecursiveMutex.recursive_mutex_lock 2%nat (RecursiveMutex.held 1%nat (Z.of_nat 2))
     = RecursiveMutex.Blocks (RecursiveMutex.held 1%nat (Z.of_nat 2 + 1))
  /\ RecursiveMutex.repeat_call RecursiveMutex.recursive_mutex_unlock 2 (RecursiveMutex.held 1%nat (Z.of_nat 2 + 1))
     = RecursiveMutex.Returns (RecursiveMutex.held 1%nat 1).
Proof.
  split; [split; [discriminate | split; [repeat constructor | run]] |].
  apply (RecursiveMutexMore.release_with_waiter_keeps_lock 1%nat 2%nat 2%nat);
    [discriminate | repeat constructor | run].
Defined.

End MoreRuns.

(** ** Removal of the namespace root *)

Section NamespaceRoot.

Variable world : Type.
Variable K : kernel world.
Variable context : hepunion_sb_info.

(** C6, on the code.  The namespace root is not refused.  Its branch
    path is the branch root with a slash behind it, [/rw/] for the union
    path [/] under the writable root [/rw]; the last slash of that text
    is not its first character, so the test [parent == real_path] under
    the comment "Caller wants to remove /!" does not hold.  [can_remove]
    goes on, looks up the attributes of the branch root, and answers
    what [can_access] answers to a write request on it: 0 when the
    caller may write there. *)
Theorem can_remove_namespace_root (s : state world) :
  read_write_branch context <> [] ->
  strlen (read_write_branch context) < PATH_MAX ->
  can_remove K [slash] (rw_path context [slash]) s
  = Done (access_value K (fs s) [slash] (read_write_branch context) W_OK)
         (record_calls s [EvGetAttr [slash] (read_write_branch context)]).
Proof.
  intros Hroot Hfit. unfold can_remove, strrchr, rw_path.
  rewrite find_last_trailing. cbn [Nat.add].
  assert (Hn : List.length (read_write_branch context) <> 0%nat)
    by (destruct (read_write_branch context); [contradiction | discriminate]).
  destruct (Nat.eqb_spec (List.length (read_write_branch context)) 0);
    [contradiction|].
  unfold strlen in Hfit.
  destruct (Z.leb_spec PATH_MAX (Z.of_nat (List.length (read_write_branch context))));
    [lia|].
  unfold slice. rewrite Nat.sub_0_r. cbn [skipn].
  rewrite firstn_app, Nat.sub_diag, firstn_all. cbn [firstn].
  rewrite app_nil_r. apply can_access_run.
Qed.

End NamespaceRoot.

Module RootRuns.
Import Toy.

(** User 1000 may write to [/rw], a directory of its own: the removal
    of the union root [/] is let through. *)
Lemma can_remove_namespace_root_rw :
  (read_write_branch mount <> [] /\ strlen (read_write_branch mount) < PATH_MAX)
  /\ can_remove user [slash] (cstr "/rw/") (boot both_branches)
     = Done 0 (record_calls (boot both_branches) [EvGetAttr [slash] (cstr "/rw")]).
Proof.
  split; [split; [discriminate | reflexivity] |].
  apply (can_remove_namespace_root toy_fs user mount (boot both_branches));
    [discriminate | reflexivity].
Defined.

End RootRuns.
